(** * unzip_cx: batch decompression planner (src/unzip_cx/cli.py)

  A shallow embedding of the discovery, destination-resolution and batch
  loop of [cli.py], over a model of the file system as a finite map from
  paths to nodes, and of the console as a list of pending input lines.

  Modelling conventions.
  - A Python [str] is a [string] (8-bit characters; [lower], [strip] and
    the comparisons are the ASCII ones).
  - A [pathlib.Path] is the list of its components below the root; the
    root itself is [[]].  An entry is a regular file, a directory, or a
    symbolic link to a directory, with the entries of that directory
    below the link; a link to a regular file is the file.  A link that
    points nowhere, permissions and the meaning of a [..] component are
    not modelled.
  - Python [int] counters are [nat].
  - [print] is not modelled: the console output carries no state.
  - What the standard library supplies and the program does not define
    (the registered unpack formats, globbing, the unpacker) is a parameter;
    [pathlib], [os] and [shutil.rmtree] act on the file-system map.
  - The [while True] loop of the rename policy takes a bound on its rounds
    and reports [OutOfFuel] at the bound; the loop of [prompt_choice]
    recurses on the pending input.
  - [main] starts from the plan that argument parsing or the interactive
    dialogue has built. *)

From Stdlib Require Import Ascii DecimalString DecimalNat.
From stdpp Require Import base decidable option list sorting strings gmap fin_maps.



(** ** Python string operations *)

Module Str.

Definition lower_char (c : ascii) : ascii :=
  let n := nat_of_ascii c in
  if (65 <=? n)%nat && (n <=? 90)%nat then ascii_of_nat (n + 32) else c.

(** [s.lower()] *)
Fixpoint lower (s : string) : string :=
  match s with
  | "" => ""
  | String c s' => String (lower_char c) (lower s')
  end.

(** [s.endswith(suffix)] *)
Fixpoint endswith (s suffix : string) : bool :=
  if String.eqb s suffix then true
  else match s with
       | "" => false
       | String _ s' => endswith s' suffix
       end.

(** [s[:n]] for [0 <= n] *)
Definition take (n : nat) (s : string) : string := String.substring 0 n s.

(** [s[:-k]] for [0 <= k].  Python reads [-0] as [0], so [s[:-0]] is the
    empty string, not [s]. *)
Definition drop_last (k : nat) (s : string) : string :=
  match k with
  | 0 => ""
  | S _ => take (String.length s - k) s
  end.

(** The characters [str.strip()] removes, among the first 128. *)
Definition isspace (c : ascii) : bool :=
  let n := nat_of_ascii c in
  ((9 <=? n)%nat && (n <=? 13)%nat) || ((28 <=? n)%nat && (n <=? 32)%nat).

Fixpoint lstrip (s : string) : string :=
  match s with
  | "" => ""
  | String c s' => if isspace c then lstrip s' else s
  end.

(** [s.strip()] *)
Definition strip (s : string) : string :=
  String.rev (lstrip (String.rev (lstrip s))).

(** [s.rfind(".")], as the number of characters before the last dot. *)
Fixpoint rfind_dot (s : string) : option nat :=
  match s with
  | "" => None
  | String c s' =>
      match rfind_dot s' with
      | Some i => Some (S i)
      | None => if Ascii.eqb c "." then Some 0 else None
      end
  end.

(** [s.replace(old, new)] for a non-empty [old]: [skip] characters of a
    match are still to be dropped. *)
Fixpoint replace_go (old new s : string) (skip : nat) : string :=
  match s with
  | "" => ""
  | String c s' =>
      match skip with
      | S k => replace_go old new s' k
      | 0 =>
          if String.prefix old s
          then new +:+ replace_go old new s' (String.length old - 1)
          else String c (replace_go old new s' 0)
      end
  end.

Definition replace (old new s : string) : string := replace_go old new s 0.

(** [str(n)] for a non-negative [int] *)
Definition of_nat (n : nat) : string := NilEmpty.string_of_uint (Nat.to_uint n).

End Str.

(** [sorted(l, key=..., reverse=...)]: Python's sort is stable, so its result
  is that of any stable sort.  [before x y] says that [x] may stay in front
  of a later [y]. *)
Section Sorted.
Context {A : Type} (before : A → A → bool).

Fixpoint insert_sorted (x : A) (l : list A) : list A :=
  match l with
  | [] => [x]
  | y :: l' => if before x y then x :: l else y :: insert_sorted x l'
  end.

Definition sorted (l : list A) : list A := foldr insert_sorted [] l.
End Sorted.

(** ** Paths *)

Abbreviation Path := (list string).

Module PurePath.

(** [path.name] *)
Definition name (p : Path) : string := default "" (last p).

(** [path.parent]; the root is its own parent. *)
Definition parent (p : Path) : Path := removelast p.

(** [path / s] for a string [s] without separator: empty and ["."]
    segments are dropped by pathlib. *)
Definition join (p : Path) (s : string) : Path :=
  if decide (s = "" ∨ s = ".") then p else p ++ [s].

(** [path.stem]: the name without its last suffix.  A leading or a
    trailing dot starts no suffix. *)
Definition stem (p : Path) : string :=
  let n := name p in
  match Str.rfind_dot n with
  | Some i =>
      if (0 <? i)%nat && (i <? String.length n - 1)%nat then Str.take i n else n
  | None => n
  end.

(** Paths order as the tuples of their components do. *)
Fixpoint leb (p q : Path) : bool :=
  match p, q with
  | [], _ => true
  | _ :: _, [] => false
  | a :: p', b :: q' =>
      if decide (a = b) then leb p' q' else String.leb a b
  end.

End PurePath.

(** ** The file system and the console *)

(** An entry of the file system, as the calls of the program tell entries
    apart: a regular file (a symbolic link to a regular file behaves as the
    file), a directory, and a symbolic link to a directory.  The entries of
    the directory that a link points to are the paths below the link; a
    link that points nowhere is not represented. *)
Inductive node : Type :=
| File (content : string)
| Dir
| DirLink.

Global Instance node_eq_dec : EqDecision node.
Proof. solve_decision. Defined.

Abbreviation FS := (gmap Path node).

(** The exception classes the program meets.  [FileExistsError],
  [FileNotFoundError], [NotADirectoryError] and [shutil.ReadError] are
  subclasses of [OSError]; [OSError] stands for its other instances and
  [OtherError] for an exception outside [ReadError], [ValueError] and
  [OSError] (a [RuntimeError], say). *)
Inductive exn : Type :=
| EOFError
| FileExistsError
| FileNotFoundError
| NotADirectoryError
| ReadError
| ValueError
| OSError
| OtherError.

Global Instance exn_eq_dec : EqDecision exn.
Proof. solve_decision. Defined.

Module Os.

(** [path.exists()] *)
Definition path_exists (p : Path) (fs : FS) : bool :=
  bool_decide (is_Some (fs !! p)).

(** [path.is_dir()], which follows a symbolic link *)
Definition is_dir (p : Path) (fs : FS) : bool :=
  match fs !! p with Some Dir | Some DirLink => true | _ => false end.

(** [path.is_file()] *)
Definition is_file (p : Path) (fs : FS) : bool :=
  match fs !! p with Some (File _) => true | _ => false end.

(** [os.mkdir(p)] *)
Definition mkdir (p : Path) (fs : FS) : exn + FS :=
  match fs !! p with
  | Some _ => inl FileExistsError
  | None =>
      match fs !! PurePath.parent p with
      | None => inl FileNotFoundError
      | Some (File _) => inl NotADirectoryError
      | Some Dir | Some DirLink => inr (<[p := Dir]> fs)
      end
  end.

(** [Path.mkdir(parents=True, exist_ok=True)], by recursion on the
    components of the path, innermost first: a missing parent is created
    first; another failure is forgiven when the path is a directory. *)
Fixpoint makedirs_rev (rp : list string) (fs : FS) : exn + FS :=
  let p := reverse rp in
  match mkdir p fs with
  | inr fs' => inr fs'
  | inl FileNotFoundError =>
      match rp with
      | [] => inl FileNotFoundError
      | _ :: rparent =>
          match makedirs_rev rparent fs with
          | inl e => inl e
          | inr fs1 =>
              match mkdir p fs1 with
              | inr fs2 => inr fs2
              | inl e => if is_dir p fs1 then inr fs1 else inl e
              end
          end
      end
  | inl e => if is_dir p fs then inr fs else inl e
  end.

Definition makedirs (p : Path) (fs : FS) : exn + FS :=
  makedirs_rev (reverse p) fs.

(** [q] is an entry of the directory [p]. *)
Definition child_of (p q : Path) : Prop := q ≠ [] ∧ PurePath.parent q = p.

Global Instance child_of_dec p q : Decision (child_of p q).
Proof. unfold child_of. apply _. Defined.

(** [list(path.iterdir())] *)
Definition iterdir (p : Path) (fs : FS) : exn + list Path :=
  match fs !! p with
  | None => inl FileNotFoundError
  | Some (File _) => inl NotADirectoryError
  | Some Dir | Some DirLink => inr (filter (child_of p) (map fst (map_to_list fs)))
  end.

(** [shutil.rmtree(p)]: [p] and everything below it.  A symbolic link is
    refused, also one to a directory ([OSError]: cannot call rmtree on a
    symbolic link). *)
Definition rmtree (p : Path) (fs : FS) : exn + FS :=
  match fs !! p with
  | None => inl FileNotFoundError
  | Some (File _) => inl NotADirectoryError
  | Some DirLink => inl OSError
  | Some Dir => inr (filter (λ kv, ¬ p `prefix_of` kv.1) fs)
  end.

(** [path.unlink()]; with a link go the paths through it. *)
Definition unlink (p : Path) (fs : FS) : exn + FS :=
  match fs !! p with
  | None => inl FileNotFoundError
  | Some Dir => inl OSError
  | Some (File _) => inr (delete p fs)
  | Some DirLink => inr (filter (λ kv, ¬ p `prefix_of` kv.1) fs)
  end.

End Os.

(** The state of the world: the file system and the lines the operator
  will type. *)
Record World : Type := mkWorld { fs : FS; stdin : list string }.

(** The outcome of a computation: a value, an exception that propagates,
  or the bound on a [while True] loop reached. *)
Inductive Res (A : Type) : Type :=
| Ok (a : A) (w : World)
| Raise (e : exn) (w : World)
| OutOfFuel.

Global Instance World_eq_dec : EqDecision World.
Proof. solve_decision. Defined.

Arguments Ok {A} a w.
Arguments Raise {A} e w.
Arguments OutOfFuel {A}.

Global Instance Res_eq_dec {A : Type} `{EqDecision A} : EqDecision (Res A).
Proof. solve_decision. Defined.

Definition M (A : Type) : Type := World → Res A.

Global Instance M_ret : MRet M := λ A a w, Ok a w.

Global Instance M_bind : MBind M := λ A B f m w,
  match m w with
  | Ok a w' => f a w'
  | Raise e w' => Raise e w'
  | OutOfFuel => OutOfFuel
  end.

(** A read of the file system. *)
Definition ask_fs {A : Type} (f : FS → A) : M A := λ w, Ok (f (fs w)) w.

(** A file-system call that fails or updates the file system. *)
Definition update_fs (f : FS → exn + FS) : M unit := λ w,
  match f (fs w) with
  | inl e => Raise e w
  | inr fs' => Ok () (mkWorld fs' (stdin w))
  end.

(** A file-system call that fails or returns a value. *)
Definition query_fs {A : Type} (f : FS → exn + A) : M A := λ w,
  match f (fs w) with
  | inl e => Raise e w
  | inr a => Ok a w
  end.

(** [input(...)]: the next line, or [EOFError] at the end of the input. *)
Definition input : M string := λ w,
  match stdin w with
  | [] => Raise EOFError w
  | line :: rest => Ok line (mkWorld (fs w) rest)
  end.

(** [try: body except classes: handler] *)
Definition try_except {A : Type} (body : M A) (caught : exn → bool)
  (handler : exn → M A) : M A := λ w,
  match body w with
  | Raise e w' => if caught e then handler e w' else Raise e w'
  | r => r
  end.

(** ** The program *)

Record ExtractionPlan : Type := mkPlan {
  input_dir : Path;
  output_dir : Path;
  recursive : bool;
  on_existing : string;
  dry_run : bool;
  pattern : string
}.

Record ExtractionResult : Type := mkResult {
  extracted : nat;
  skipped : nat;
  failed : nat
}.

(** The local variables of [extract_archives] that its loop updates:
    [on_existing] and the three counters. *)
Record Locals : Type := mkLocals {
  policy : string;
  n_extracted : nat;
  n_skipped : nat;
  n_failed : nat
}.

Global Instance ExtractionResult_eq_dec : EqDecision ExtractionResult.
Proof. solve_decision. Defined.

Global Instance Locals_eq_dec : EqDecision Locals.
Proof. solve_decision. Defined.

Section Program.

(** What the standard library supplies: the registered unpack formats
    [(name, extensions, description)], the order in which the set of their
    lowercased extensions is iterated, the two globbing methods of a
    directory, and the unpacker, which leaves a file system behind and
    may raise. *)
Variable get_unpack_formats : list (string * list string * string).
Variable extension_set : list string.
Variable glob rglob : Path → string → FS → list Path.
Variable unpack_archive : Path → Path → FS → option exn * FS.

(** The elements of [{ext.lower() for _, exts, _ in ... for ext in exts}]. *)
Definition lowered_extensions : list string :=
  flat_map (λ fmt, map Str.lower fmt.1.2) get_unpack_formats.

(** [extension_set] lists that set, each element once, in some order. *)
Definition extension_set_ok : Prop :=
  extension_set ≡ₚ remove_dups lowered_extensions.

(** [SUPPORTED_EXTENSIONS] (cli.py, lines 13-17): the set, longest first. *)
Definition SUPPORTED_EXTENSIONS : list string :=
  sorted (λ a b, String.length b <=? String.length a)%nat extension_set.

(** What [prompt(text, default)] (lines 83-87) makes of the line read: the
    stripped line, or [default] when nothing is left of it. *)
Definition prompt_reply (default line : string) : string :=
  let value := Str.strip line in
  if decide (value = "") then default else value.

Definition prompt (default : string) : M string :=
  line ← input;
  mret (prompt_reply default line).

(** [prompt_choice(text, choices, default)] (lines 103-109), by recursion
    on the pending input: the [while True] loop ends at the first reply
    that is one of the choices, and with the [EOFError] of [input] when the
    input runs out. *)
Fixpoint prompt_choice_loop (choices : list string) (default : string)
    (lines : list string) (files : FS) : Res string :=
  match lines with
  | [] => Raise EOFError (mkWorld files [])
  | line :: rest =>
      let value := prompt_reply default line in
      if decide (value ∈ choices) then Ok value (mkWorld files rest)
      else prompt_choice_loop choices default rest files
  end.

Definition prompt_choice (choices : list string) (default : string) : M string :=
  λ w, prompt_choice_loop choices default (stdin w) (fs w).

(** The [for ext in SUPPORTED_EXTENSIONS] loop of [archive_stem]: [None]
    when it ends without returning. *)
Fixpoint archive_stem_loop (name lower_name : string) (exts : list string)
    : option string :=
  match exts with
  | [] => None
  | ext :: rest =>
      if Str.endswith lower_name ext
      then Some (Str.drop_last (String.length ext) name)
      else archive_stem_loop name lower_name rest
  end.

(** [archive_stem] (lines 119-125) *)
Definition archive_stem (path : Path) : string :=
  let name := PurePath.name path in
  let lower_name := Str.lower name in
  match archive_stem_loop name lower_name SUPPORTED_EXTENSIONS with
  | Some stem => stem
  | None => PurePath.stem path
  end.

(** [collect_archives] (lines 128-136), as a function of the file system
    it reads. *)
Definition collect_archives (plan : ExtractionPlan) (files : FS) : list Path :=
  let glob := if recursive plan then rglob (input_dir plan) else glob (input_dir plan) in
  let candidates := filter (λ p, Os.is_file p files) (glob (pattern plan) files) in
  let archives :=
    filter (λ path,
              let lower_name := Str.lower (PurePath.name path) in
              existsb (λ ext, Str.endswith lower_name ext) SUPPORTED_EXTENSIONS)
           candidates in
  sorted PurePath.leb archives.

(** The [for child in dest.iterdir()] loop of the overwrite branch. *)
Fixpoint overwrite_loop (children : list Path) : M unit :=
  match children with
  | [] => mret ()
  | child :: rest =>
      d ← ask_fs (Os.is_dir child);
      (if d : bool then update_fs (Os.rmtree child) else update_fs (Os.unlink child));;
      overwrite_loop rest
  end.

(** [dest.parent / f"{dest.name}_{counter}"] *)
Definition rename_candidate (dest : Path) (counter : nat) : Path :=
  PurePath.join (PurePath.parent dest)
                (PurePath.name dest +:+ "_" +:+ Str.of_nat counter).

(** The [while True] loop of the rename branch, cut after [fuel] rounds. *)
Fixpoint rename_loop (fuel : nat) (dest : Path) (counter : nat) : M Path :=
  match fuel with
  | 0 => λ _, OutOfFuel
  | S fuel' =>
      let candidate := rename_candidate dest counter in
      taken ← ask_fs (Os.path_exists candidate);
      if taken : bool then rename_loop fuel' dest (counter + 1)
      else update_fs (Os.makedirs candidate);; mret candidate
  end.

(** [ensure_destination] (lines 139-164); [None] is Python's [None]. *)
Definition ensure_destination (fuel : nat) (dest : Path) (on_existing : string)
    : M (option Path) :=
  present ← ask_fs (Os.path_exists dest);
  if negb present then update_fs (Os.makedirs dest);; mret (Some dest)
  else if decide (on_existing = "skip") then mret None
  else if decide (on_existing = "overwrite") then
    children ← query_fs (Os.iterdir dest);
    overwrite_loop children;;
    mret (Some dest)
  else if decide (on_existing = "rename") then
    candidate ← rename_loop fuel dest 1;
    mret (Some candidate)
  else mret None.

(** [handle_existing_dest] (lines 167-182) *)
Definition handle_existing_dest (fuel : nat) (dest : Path) (on_existing : string)
    : M (option Path * string) :=
  present ← ask_fs (Os.path_exists dest);
  if negb present || negb (bool_decide (on_existing = "ask")) then
    r ← ensure_destination fuel dest on_existing;
    mret (r, on_existing)
  else
    choice ← prompt_choice
      ["skip"; "overwrite"; "rename"; "skip-all"; "overwrite-all"; "rename-all"]
      "skip";
    if Str.endswith choice "-all" then
      let resolved := Str.replace "-all" "" choice in
      r ← ensure_destination fuel dest resolved;
      mret (r, resolved)
    else
      r ← ensure_destination fuel dest choice;
      mret (r, on_existing).

(** [shutil.unpack_archive(str(archive), str(dest))] *)
Definition shutil_unpack_archive (archive dest : Path) : M unit := λ w,
  match unpack_archive archive dest (fs w) with
  | (None, fs') => Ok () (mkWorld fs' (stdin w))
  | (Some e, fs') => Raise e (mkWorld fs' (stdin w))
  end.

(** [except (shutil.ReadError, ValueError, OSError)] *)
Definition extraction_error (e : exn) : bool :=
  match e with
  | ReadError | ValueError | OSError
  | FileExistsError | FileNotFoundError | NotADirectoryError => true
  | EOFError | OtherError => false
  end.

(** The [for] loop of [extract_archives] (lines 189-209) as a transformer
    of its local variables. *)
Fixpoint extract_loop (fuel : nat) (plan : ExtractionPlan) (archives : list Path)
    (st : Locals) : M Locals :=
  match archives with
  | [] => mret st
  | archive :: rest =>
      let stem := archive_stem archive in
      let dest := PurePath.join (output_dir plan) stem in
      r ← handle_existing_dest fuel dest (policy st);
      let '(resolved_dest, on_existing) := r in
      match resolved_dest with
      | None =>
          extract_loop fuel plan rest
            (mkLocals on_existing (n_extracted st) (n_skipped st + 1) (n_failed st))
      | Some resolved_dest =>
          if dry_run plan then
            extract_loop fuel plan rest
              (mkLocals on_existing (n_extracted st + 1) (n_skipped st) (n_failed st))
          else
            st' ← try_except
              (shutil_unpack_archive archive resolved_dest;;
               mret (mkLocals on_existing (n_extracted st + 1) (n_skipped st) (n_failed st)))
              extraction_error
              (λ exc,
                 mret (mkLocals on_existing (n_extracted st) (n_skipped st) (n_failed st + 1)));
            extract_loop fuel plan rest st'
      end
  end.

(** [extract_archives] (lines 185-211) *)
Definition extract_archives (fuel : nat) (plan : ExtractionPlan)
    (archives : list Path) : M ExtractionResult :=
  st ← extract_loop fuel plan archives (mkLocals (on_existing plan) 0 0 0);
  mret (mkResult (n_extracted st) (n_skipped st) (n_failed st)).

(** [main] (lines 270-287), from the plan that the argument parser or the
    interactive dialogue has built; the value is the exit status. *)
Definition main (fuel : nat) (plan : ExtractionPlan) : M nat :=
  present ← ask_fs (Os.path_exists (input_dir plan));
  if negb present then mret 2
  else
    archives ← ask_fs (collect_archives plan);
    match archives with
    | [] => mret 0
    | _ :: _ =>
        update_fs (Os.makedirs (output_dir plan));;
        result ← extract_archives fuel plan archives;
        mret (if decide (failed result = 0) then 0 else 1)
    end.

(** The destinations of a batch, resolved in order with the policy carried
    from one archive to the next: what a run does besides unpacking. *)
Fixpoint resolve_destinations (fuel : nat) (plan : ExtractionPlan)
    (archives : list Path) (on_existing : string) : M (list (option Path)) :=
  match archives with
  | [] => mret []
  | archive :: rest =>
      let dest := PurePath.join (output_dir plan) (archive_stem archive) in
      r ← handle_existing_dest fuel dest on_existing;
      ds ← resolve_destinations fuel plan rest r.2;
      mret (r.1 :: ds)
  end.

End Program.

(** ** Vocabulary of the statements *)

(** A well-formed file system: the root is a directory, and the parent of
    every entry is a directory or a link to one. *)
Definition fs_wf (files : FS) : Prop :=
  files !! [] = Some Dir ∧
  map_Forall (λ p _, Os.is_dir (PurePath.parent p) files = true) files.

Global Instance fs_wf_dec files : Decision (fs_wf files).
Proof. unfold fs_wf. apply _. Defined.

(** [q] lies strictly below [dest]. *)
Definition below (dest q : Path) : Prop := dest `prefix_of` q ∧ q ≠ dest.

(** No regular file was created or rewritten between two file systems. *)
Definition no_new_files (before after : FS) : Prop :=
  ∀ p c, after !! p = Some (File c) → before !! p = Some (File c).

(** The world an outcome leaves behind. *)
Definition final_world {A : Type} (r : Res A) : option World :=
  match r with
  | Ok _ w | Raise _ w => Some w
  | OutOfFuel => None
  end.

(** The outcome with its value mapped. *)
Definition res_map {A B : Type} (f : A → B) (r : Res A) : Res B :=
  match r with
  | Ok a w => Ok (f a) w
  | Raise e w => Raise e w
  | OutOfFuel => OutOfFuel
  end.

(** Every run of [m] relates the world it starts in to the world it leaves. *)
Definition preserves {A : Type} (R : World → World → Prop) (m : M A) : Prop :=
  ∀ w w', final_world (m w) = Some w' → R w w'.

(** The decisions that are a directory to use, and those that are a skip. *)
Definition count_use (ds : list (option Path)) : nat :=
  length (filter (λ d, is_Some d) ds).

Definition count_skip (ds : list (option Path)) : nat :=
  length (filter (λ d, d = None) ds).


(** The value and the world of an outcome, with defaults for the outcomes
    that have none. *)
Definition res_value {A : Type} (d : A) (r : Res A) : A :=
  match r with
  | Ok a _ => a
  | _ => d
  end.

Definition res_world {A : Type} (d : World) (r : Res A) : World :=
  match r with
  | Ok _ w | Raise _ w => w
  | OutOfFuel => d
  end.

(** ** A concrete scenario

    An input directory with four archives (one of them corrupted), a text
    file and a directory named like an archive; an output directory where
    [out] (not empty) and [out_1] exist already. *)
Module Scenario.

Definition formats : list (string * list string * string) :=
  [("bztar", [".tar.bz2"; ".tbz2"], "bzip2'ed tar-file");
   ("gztar", [".tar.gz"; ".tgz"], "gzip'ed tar-file");
   ("tar", [".tar"], "uncompressed tar file");
   ("xztar", [".tar.xz"; ".txz"], "xz'ed tar-file");
   ("zip", [".zip"], "ZIP file");
   ("gz", [".GZ"], "gzip'ed file")].

Definition extension_set : list string :=
  remove_dups (lowered_extensions formats).

Definition files : FS :=
  list_to_map
    [([], Dir);
     (["in"], Dir);
     (["in"; "a.zip"], File "PK");
     (["in"; "b.tgz"], File "corrupted");
     (["in"; "out.tar.gz"], File "tar");
     (["in"; "out_1.ZIP"], File "PK");
     (["in"; "notes.txt"], File "text");
     (["in"; "sub.zip"], Dir);
     (["dest"], Dir);
     (["dest"; "out"], Dir);
     (["dest"; "out"; "x"], File "1");
     (["dest"; "out"; "d"], Dir);
     (["dest"; "out"; "d"; "y"], File "2");
     (["dest"; "out_1"], Dir)].

(** A glob for the pattern [*]: the entries of the directory. *)
Definition glob (dir : Path) (pattern : string) (files : FS) : list Path :=
  filter (Os.child_of dir) (map fst (map_to_list files)).

(** An unpacker that rejects [b.tgz] and otherwise writes one file. *)
Definition unpack_archive (archive dest : Path) (files : FS) : option exn * FS :=
  if decide (archive = ["in"; "b.tgz"]) then (Some ReadError, files)
  else (None, <[dest ++ ["content"] := File "data"]> files).

Definition plan : ExtractionPlan := mkPlan ["in"] ["dest"] false "ask" false "*".

Definition dry_plan : ExtractionPlan := mkPlan ["in"] ["dest"] false "ask" true "*".

Definition missing_plan : ExtractionPlan :=
  mkPlan ["nowhere"] ["dest"] false "ask" false "*".

Definition world : World := mkWorld files ["what"; " skip-all "; "unused"].

Definition archives : list Path := collect_archives extension_set glob glob plan files.

End Scenario.

(** ** The front end

    [prompt_yes_no], [normalize_path], [interactive_plan], [plan_from_args]
    and the head of [main] (lines 90-100, 112-116, 214-268).  The parser of
    the command line is [argparse]'s; what it returns is the record [Args]. *)

(** [str(path)] of an absolute path *)
Definition path_str (p : Path) : string :=
  "/" +:+ String.concat "/" p.

(** The [while True] loop of [prompt_yes_no(text, default)] (lines 90-100),
    by recursion on the pending input. *)
Fixpoint prompt_yes_no_loop (default : bool) (lines : list string) (files : FS)
    : Res bool :=
  match lines with
  | [] => Raise EOFError (mkWorld files [])
  | line :: rest =>
      let value := Str.lower (Str.strip line) in
      if decide (value = "") then Ok default (mkWorld files rest)
      else if decide (value ∈ ["y"; "yes"]) then Ok true (mkWorld files rest)
      else if decide (value ∈ ["n"; "no"]) then Ok false (mkWorld files rest)
      else prompt_yes_no_loop default rest files
  end.

Definition prompt_yes_no (default : bool) : M bool :=
  λ w, prompt_yes_no_loop default (stdin w) (fs w).

Section FrontEnd.

(** What the environment supplies: the working directory [Path.cwd()]; the
    path [Path(s).expanduser().resolve()] of a string; the paths the parser
    builds from the command line, which may be relative, with the working
    directory among them, their [/] and their [expanduser().resolve()]. *)
Variable cwd : Path.
Variable resolve_str : string → Path.
Variable RawPath : Type.
Variable raw_cwd : RawPath.
Variable raw_join : RawPath → string → RawPath.
Variable resolve_raw : RawPath → Path.

Variable extension_set : list string.
Variable glob rglob : Path → string → FS → list Path.
Variable unpack_archive : Path → Path → FS → option exn * FS.

(** [normalize_path] (lines 112-116) *)
Definition normalize_path (value : string) (fallback : Path) : Path :=
  let cleaned := Str.strip value in
  if decide (cleaned = "") then fallback else resolve_str cleaned.

(** [interactive_plan] (lines 214-247); [None] is the [sys.exit(0)] that
    follows a declined confirmation. *)
Definition interactive_plan : M (option ExtractionPlan) :=
  let current := cwd in
  reply ← prompt (path_str current);
  let input_dir := normalize_path reply current in
  let output_default := PurePath.join input_dir "extracted" in
  reply ← prompt (path_str output_default);
  let output_dir := normalize_path reply output_default in
  recursive ← prompt_yes_no false;
  pattern ← prompt "*";
  on_existing ← prompt_choice ["ask"; "skip"; "overwrite"; "rename"] "ask";
  dry_run ← prompt_yes_no false;
  proceed ← prompt_yes_no true;
  if negb proceed then mret None
  else mret (Some (mkPlan input_dir output_dir recursive on_existing dry_run pattern)).

(** The namespace that [parser.parse_args] returns. *)
Record Args : Type := mkArgs {
  arg_input : option RawPath;
  arg_output : option RawPath;
  arg_recursive : bool;
  arg_pattern : string;
  arg_on_existing : string;
  arg_dry_run : bool;
  arg_interactive : bool
}.

(** [plan_from_args] (lines 250-260); a path object is always true, so
    [args.input or ...] takes the alternative only for [None]. *)
Definition plan_from_args (args : Args) : ExtractionPlan :=
  let input_dir := default raw_cwd (arg_input args) in
  let output_dir := default (raw_join input_dir "extracted") (arg_output args) in
  mkPlan (resolve_raw input_dir) (resolve_raw output_dir) (arg_recursive args)
         (arg_on_existing args) (arg_dry_run args) (arg_pattern args).

(** [main] from the parsed arguments (lines 265-287); the [SystemExit(0)]
    of a declined plan ends the process with status 0. *)
Definition main_from_args (fuel : nat) (args : Args) : M nat :=
  let interactive :=
    arg_interactive args
    || negb (bool_decide (is_Some (arg_input args) ∨ is_Some (arg_output args))) in
  if interactive then
    plan ← interactive_plan;
    match plan with
    | None => mret 0
    | Some plan => main extension_set glob rglob unpack_archive fuel plan
    end
  else main extension_set glob rglob unpack_archive fuel (plan_from_args args).

End FrontEnd.

(** The four collision policies. *)
Definition valid_policy (on_existing : string) : Prop :=
  on_existing ∈ ["ask"; "skip"; "overwrite"; "rename"].

Global Instance ExtractionPlan_eq_dec : EqDecision ExtractionPlan.
Proof. solve_decision. Defined.

(** ** Further cases

    Variations of the scenario: other policies, an operator whose replies
    are all refused, a regular file in the way, an unpacker that crashes,
    and an environment for the front end. *)
Module Cases.

Definition skip_plan : ExtractionPlan := mkPlan ["in"] ["dest"] false "skip" false "*".

Definition dry_skip_plan : ExtractionPlan := mkPlan ["in"] ["dest"] false "skip" true "*".

Definition dry_overwrite_plan : ExtractionPlan :=
  mkPlan ["in"] ["dest"] false "overwrite" true "*".

(** An output directory two levels below the root, neither of which exists. *)
Definition deep_plan : ExtractionPlan :=
  mkPlan ["in"] ["new"; "deep"] false "skip" true "*".

(** An output path that is a regular file. *)
Definition file_output_plan : ExtractionPlan :=
  mkPlan ["in"] ["in"; "notes.txt"] false "skip" false "*".

(** No pending line answers the collision prompt. *)
Definition deaf_world : World := mkWorld Scenario.files ["what"; "never"].

(** The operator answers for one archive only. *)
Definition plain_world : World := mkWorld Scenario.files [" rename"; "unused"].

(** A regular file where the directory of [a.zip] is to go. *)
Definition blocked_world : World :=
  mkWorld (<[["dest"; "a"] := File "x"]> Scenario.files) ["unused"].

(** A symbolic link to a directory among the entries of [dest/out], as an
    earlier extraction of a tar archive can leave one. *)
Definition linked_world : World :=
  mkWorld (<[["dest"; "out"; "ln"] := DirLink]> Scenario.files) ["unused"].

(** An unpacker that crashes after it has written a file. *)
Definition unpack_crash (archive dest : Path) (files : FS) : option exn * FS :=
  (Some OtherError, <[dest ++ ["partial"] := File "da"]> files).

(** An unpacker for which [b.tgz] is an archive with a damaged member: the
    archive opens, and the extraction of the member ends with an exception
    of the archive library ([zipfile.BadZipFile], a [tarfile] error,
    [EOFError] of a truncated stream), none of which is a [ReadError], a
    [ValueError] or an [OSError]. *)
Definition unpack_bad_member (archive dest : Path) (files : FS) : option exn * FS :=
  if decide (archive = ["in"; "b.tgz"])
  then (Some OtherError, <[dest ++ ["partial"] := File "da"]> files)
  else (None, <[dest ++ ["content"] := File "data"]> files).

(** The components of a text between its slashes. *)
Fixpoint split_slash (s current : string) : list string :=
  match s with
  | "" => [current]
  | String c s' =>
      if Ascii.eqb c "/" then current :: split_slash s' ""
      else split_slash s' (current +:+ String c "")
  end.

Definition cwd : Path := ["in"].

(** A resolver for texts without [.], [..] and [~] components: an absolute
    text is its components, another one is taken below [cwd]. *)
Definition resolve_str (s : string) : Path :=
  let parts := filter (λ part, part ≠ "") (split_slash s "") in
  if String.prefix "/" s then parts else cwd ++ parts.

(** The paths of the command line, as resolved paths already. *)
Definition raw_join (p : Path) (s : string) : Path := PurePath.join p s.

Definition resolve_raw (p : Path) : Path := p.

(** [unzip-cx -i /in --on-existing skip] *)
Definition skip_args : Args Path :=
  mkArgs Path (Some ["in"]) None false "*" "skip" false false.

(** [unzip-cx] and [unzip-cx --recursive --pattern *.zip --on-existing overwrite
    --dry-run] *)
Definition bare_args : Args Path := mkArgs Path None None false "*" "ask" false false.

Definition bare_dry_args : Args Path :=
  mkArgs Path None None true "*.zip" "overwrite" true false.

(** A dialogue: the default input directory, [/dest] as output, no
    recursion, the default pattern, a refused policy and then [skip], a dry
    run, and the confirmation (given, or declined). *)
Definition accept_world : World :=
  mkWorld Scenario.files [""; " /dest "; "N"; ""; "oops"; "skip"; "Yes"; ""; "left over"].

Definition cancel_world : World :=
  mkWorld Scenario.files [""; " /dest "; "N"; ""; "oops"; "skip"; "Yes"; "no"; "left over"].

End Cases.

(** * Properties *)

(** ** Strings *)

Lemma string_app_nil_l (s : string) : "" +:+ s = s.
Proof. reflexivity. Qed.

Lemma string_app_cons (c : ascii) (a b : string) :
  String c a +:+ b = String c (a +:+ b).
Proof. reflexivity. Qed.

(** [String.app] never unfolds under [simpl]; these equations do it. *)
Ltac str_simpl :=
  repeat (rewrite ?string_app_cons, ?string_app_nil_l in *; simpl in * ).

Lemma string_length_app (a b : string) :
  String.length (a +:+ b) = String.length a + String.length b.
Proof. induction a as [|x a IH]; str_simpl; [done|by rewrite IH]. Qed.

Lemma string_length_zero (s : string) : String.length s = 0 → s = "".
Proof. by destruct s. Qed.

Lemma endswith_unfold (s suffix : string) :
  Str.endswith s suffix =
    if decide (s = suffix) then true
    else match s with "" => false | String _ s' => Str.endswith s' suffix end.
Proof.
  destruct s as [|c s].
  - destruct suffix; by case_decide.
  - change (Str.endswith (String c s) suffix)
      with (if String.eqb (String c s) suffix then true else Str.endswith s suffix).
    destruct (String.eqb_spec (String c s) suffix); by case_decide.
Qed.

Lemma endswith_iff (s suffix : string) :
  Str.endswith s suffix = true ↔ ∃ pre, s = pre +:+ suffix.
Proof.
  induction s as [|c s IH]; rewrite endswith_unfold; case_decide as Hs.
  - subst. split; [by exists ""|done].
  - split; [done|]. intros [[|x pre] Hpre]; [done|discriminate].
  - subst. split; [by exists ""|done].
  - rewrite IH. split.
    + intros [pre ->]. by exists (String c pre).
    + intros [[|x pre] Hpre]; [done|].
      rewrite string_app_cons in Hpre.
      injection Hpre as -> ->. by exists pre.
Qed.

Lemma lower_length (s : string) : String.length (Str.lower s) = String.length s.
Proof. induction s as [|c s IH]; simpl; [done|by rewrite IH]. Qed.

Lemma lower_app (a b : string) : Str.lower (a +:+ b) = Str.lower a +:+ Str.lower b.
Proof. induction a as [|x a IH]; str_simpl; [done|by rewrite IH]. Qed.

Lemma lower_app_inv (s a b : string) :
  Str.lower s = a +:+ b →
  ∃ a' b', s = a' +:+ b' ∧ Str.lower a' = a ∧ Str.lower b' = b.
Proof.
  revert s. induction a as [|x a IH]; intros s Heq.
  - by exists "", s.
  - destruct s as [|c s]; [discriminate|].
    rewrite string_app_cons in Heq. simpl in Heq.
    injection Heq as Hc Heq. destruct (IH _ Heq) as (a' & b' & -> & <- & <-).
    exists (String c a'), b'. simpl. by rewrite Hc.
Qed.

Lemma take_app_length (pre suffix : string) :
  Str.take (String.length pre) (pre +:+ suffix) = pre.
Proof.
  unfold Str.take. induction pre as [|c pre IH]; str_simpl.
  - by destruct suffix.
  - by rewrite IH.
Qed.

(** [s[:-len(suffix)]] strips a non-empty suffix. *)
Lemma drop_last_app (pre suffix : string) :
  suffix ≠ "" → Str.drop_last (String.length suffix) (pre +:+ suffix) = pre.
Proof.
  intros Hne. unfold Str.drop_last.
  destruct (String.length suffix) as [|k] eqn:Hlen.
  - by apply string_length_zero in Hlen.
  - rewrite string_length_app, Hlen.
    replace (String.length pre + S k - S k) with (String.length pre) by lia.
    apply take_app_length.
Qed.

Lemma of_nat_inj (n m : nat) : Str.of_nat n = Str.of_nat m → n = m.
Proof.
  unfold Str.of_nat. intros Heq. apply Unsigned.to_uint_inj.
  apply (f_equal NilEmpty.uint_of_string) in Heq.
  rewrite !NilEmpty.usu in Heq. congruence.
Qed.

(** ** Sorting *)

Section SortedFacts.
Context {A : Type} (before : A → A → bool).

Lemma insert_sorted_perm (x : A) (l : list A) : insert_sorted before x l ≡ₚ x :: l.
Proof.
  induction l as [|y l IH]; simpl; [done|].
  destruct (before x y); [done|]. rewrite IH. apply Permutation_swap.
Qed.

Lemma sorted_perm (l : list A) : sorted before l ≡ₚ l.
Proof.
  induction l as [|x l IH]; simpl; [done|].
  unfold sorted in IH. by rewrite insert_sorted_perm, IH.
Qed.

Lemma elem_of_sorted (x : A) (l : list A) : x ∈ sorted before l ↔ x ∈ l.
Proof. by rewrite sorted_perm. Qed.

Hypothesis before_total : ∀ x y, before x y = true ∨ before y x = true.
Hypothesis before_trans :
  ∀ x y z, before x y = true → before y z = true → before x z = true.

Lemma insert_sorted_StronglySorted (x : A) (l : list A) :
  StronglySorted (λ a b, before a b = true) l →
  StronglySorted (λ a b, before a b = true) (insert_sorted before x l).
Proof.
  induction 1 as [|y l Hl IH Hy]; simpl.
  - repeat constructor.
  - destruct (before x y) eqn:Hxy.
    + constructor; [by constructor|]. constructor; [done|].
      eapply Forall_impl; [exact Hy|]. intros z Hz. by eapply before_trans.
    + constructor; [done|]. rewrite insert_sorted_perm. constructor; [|done].
      destruct (before_total x y); congruence.
Qed.

Lemma sorted_StronglySorted (l : list A) :
  StronglySorted (λ a b, before a b = true) (sorted before l).
Proof.
  induction l as [|x l IH]; simpl; [constructor|].
  by apply insert_sorted_StronglySorted.
Qed.

End SortedFacts.

Lemma StronglySorted_mono {A : Type} (R1 R2 : A → A → Prop) (l : list A) :
  (∀ a b, R1 a b → R2 a b) → StronglySorted R1 l → StronglySorted R2 l.
Proof.
  intros HR. induction 1 as [|x l Hl IH Hx]; constructor; [done|].
  eapply Forall_impl; [exact Hx|]. intros y. apply HR.
Qed.

(** ** Extensions and stems *)

Section Extensions.
Context (formats : list (string * list string * string)) (extension_set : list string).

Lemma supported_extension_iff (ext : string) :
  extension_set_ok formats extension_set →
  ext ∈ SUPPORTED_EXTENSIONS extension_set ↔ ext ∈ lowered_extensions formats.
Proof.
  intros Hok. unfold SUPPORTED_EXTENSIONS. rewrite elem_of_sorted, Hok.
  apply elem_of_remove_dups.
Qed.

(** The extensions are tried longest first. *)
Lemma supported_extensions_longest_first :
  StronglySorted (λ a b, String.length b ≤ String.length a)
    (SUPPORTED_EXTENSIONS extension_set).
Proof.
  unfold SUPPORTED_EXTENSIONS.
  eapply StronglySorted_mono;
    [|apply (sorted_StronglySorted (λ a b, String.length b <=? String.length a))].
  - intros a b Hab. by apply Nat.leb_le.
  - intros x y.
    destruct (Nat.le_ge_cases (String.length x) (String.length y));
      [right|left]; by apply Nat.leb_le.
  - intros x y z ?%Nat.leb_le ?%Nat.leb_le. apply Nat.leb_le. lia.
Qed.

(** The loop of [archive_stem] returns at the longest extension that ends
    the lowercased name, when one does. *)
Lemma archive_stem_loop_longest (name lower_name : string) (exts : list string) :
  StronglySorted (λ a b, String.length b ≤ String.length a) exts →
  (∃ ext, ext ∈ exts ∧ Str.endswith lower_name ext = true) →
  ∃ e, e ∈ exts ∧ Str.endswith lower_name e = true ∧
       (∀ ext, ext ∈ exts → Str.endswith lower_name ext = true →
               String.length ext ≤ String.length e) ∧
       archive_stem_loop name lower_name exts =
         Some (Str.drop_last (String.length e) name).
Proof.
  induction 1 as [|x exts Hs IH Hx]; intros (ext & Hin & Hends).
  - by apply elem_of_nil in Hin.
  - simpl. destruct (Str.endswith lower_name x) eqn:Hxe.
    + exists x. split_and!; [by left|done| |done].
      intros ext' [->|Hin']%elem_of_cons _; [done|].
      by eapply Forall_forall in Hx.
    + apply elem_of_cons in Hin as [->|Hin]; [congruence|].
      destruct IH as (e & He & Hee & Hmax & Hloop); [by exists ext|].
      exists e. split_and!; [by right|done| |done].
      intros ext' [->|Hin']%elem_of_cons Hends'; [congruence|by apply Hmax].
Qed.

Lemma archive_stem_loop_none (name lower_name : string) (exts : list string) :
  archive_stem_loop name lower_name exts = None →
  ∀ ext, ext ∈ exts → Str.endswith lower_name ext = false.
Proof.
  induction exts as [|x exts IH]; simpl; intros Hnone ext Hin.
  - by apply elem_of_nil in Hin.
  - destruct (Str.endswith lower_name x) eqn:Hx; [done|].
    apply elem_of_cons in Hin as [->|Hin]; [done|by apply IH].
Qed.

End Extensions.

Lemma prefix_cons (a b : ascii) (s1 s2 : string) :
  String.prefix (String a s1) (String b s2) =
    if ascii_dec a b then String.prefix s1 s2 else false.
Proof. reflexivity. Qed.

Lemma prefix_dot (s : string) :
  String.prefix "." s = true ↔ ∃ r, s = String "."%char r.
Proof.
  destruct s as [|c s].
  - split; [done|]. by intros [r ?].
  - rewrite prefix_cons. destruct (ascii_dec "." c) as [<-|Hne].
    + split; [by exists s|]. by destruct s.
    + split; [done|]. intros [r [= -> _]]. done.
Qed.

Lemma lower_char_dot (c : ascii) : Str.lower_char c = "."%char → c = "."%char.
Proof.
  unfold Str.lower_char.
  destruct ((65 <=? nat_of_ascii c)%nat && (nat_of_ascii c <=? 90)%nat) eqn:Hc; [|done].
  apply andb_true_iff in Hc as [H1%Nat.leb_le H2%Nat.leb_le].
  intros Heq. apply (f_equal nat_of_ascii) in Heq.
  rewrite nat_ascii_embedding in Heq by lia.
  change (nat_of_ascii ".") with 46 in Heq. lia.
Qed.

Lemma lower_prefix_dot (s : string) :
  String.prefix "." (Str.lower s) = true → String.prefix "." s = true.
Proof.
  intros [r Hr]%prefix_dot. destruct s as [|c s]; [done|].
  simpl in Hr. injection Hr as Hc%lower_char_dot _. subst c.
  apply prefix_dot. by exists s.
Qed.

Lemma name_snoc (dir : Path) (name : string) : PurePath.name (dir ++ [name]) = name.
Proof. unfold PurePath.name. by rewrite last_snoc. Qed.

Lemma parent_snoc (dir : Path) (name : string) : PurePath.parent (dir ++ [name]) = dir.
Proof. unfold PurePath.parent. apply removelast_last. Qed.

(** The only way to cut ["data.tar.gz"] before a dot with at least seven
    characters left is after ["data"]. *)
Lemma data_tar_gz_split (stem tail : string) :
  "data.tar.gz" = stem +:+ tail →
  7 ≤ String.length tail →
  String.prefix "." tail = true →
  stem = "data".
Proof.
  intros Heq Hlen Hdot.
  do 4 (destruct stem as [|? stem];
        [rewrite string_app_nil_l in Heq; subst tail;
         by apply prefix_dot in Hdot as [r Hr]|];
        rewrite string_app_cons in Heq; injection Heq as <- Heq).
  destruct stem as [|? stem]; [done|]. exfalso.
  apply (f_equal String.length) in Heq.
  rewrite string_length_app in Heq. simpl in Heq. lia.
Qed.

(** C2.  When every registered extension starts with a dot: for every
    archive name that ends, ignoring case, with a known extension, the name
    is its stem followed by a tail that is a known extension up to case, and
    no known extension that ends the name is longer than that tail.  In
    particular, when [.gz] and [.tar.gz] are both known, the stem of
    [data.tar.gz] is [data]. *)
Theorem archive_stem_longest_suffix
    (formats : list (string * list string * string)) (extension_set : list string) :
  extension_set_ok formats extension_set →
  Forall (λ ext, String.prefix "." ext = true) (lowered_extensions formats) →
  (∀ (path : Path) (ext : string),
     ext ∈ lowered_extensions formats →
     Str.endswith (Str.lower (PurePath.name path)) ext = true →
     ∃ stem tail,
       PurePath.name path = stem +:+ tail ∧
       Str.lower tail ∈ lowered_extensions formats ∧
       (∀ ext', ext' ∈ lowered_extensions formats →
                Str.endswith (Str.lower (PurePath.name path)) ext' = true →
                String.length ext' ≤ String.length tail) ∧
       archive_stem extension_set path = stem) ∧
  (".gz" ∈ lowered_extensions formats →
   ".tar.gz" ∈ lowered_extensions formats →
   ∀ dir : Path, archive_stem extension_set (dir ++ ["data.tar.gz"]) = "data").
Proof.
  intros Hok Hdot.
  assert (Hgen : ∀ (path : Path) (ext : string),
     ext ∈ lowered_extensions formats →
     Str.endswith (Str.lower (PurePath.name path)) ext = true →
     ∃ stem tail,
       PurePath.name path = stem +:+ tail ∧
       Str.lower tail ∈ lowered_extensions formats ∧
       (∀ ext', ext' ∈ lowered_extensions formats →
                Str.endswith (Str.lower (PurePath.name path)) ext' = true →
                String.length ext' ≤ String.length tail) ∧
       archive_stem extension_set path = stem).
  { intros path ext Hin Hends.
    destruct (archive_stem_loop_longest (PurePath.name path)
                (Str.lower (PurePath.name path)) (SUPPORTED_EXTENSIONS extension_set))
      as (e & He & Hee & Hmax & Hloop).
    { apply supported_extensions_longest_first. }
    { exists ext. split; [by apply (supported_extension_iff formats)|done]. }
    apply (supported_extension_iff formats) in He; [|done].
    apply endswith_iff in Hee as [pre Hpre].
    apply lower_app_inv in Hpre as (stem & tail & Hname & _ & Htail).
    exists stem, tail.
    assert (Hlen : String.length tail = String.length e)
      by (by rewrite <- Htail, lower_length).
    split_and!.
    - done.
    - by rewrite Htail.
    - intros ext' Hin' Hends'. rewrite Hlen. apply Hmax; [|done].
      by apply (supported_extension_iff formats).
    - unfold archive_stem. rewrite Hloop, Hname, <- Hlen.
      apply drop_last_app. intros ->. simpl in Htail. subst e.
      eapply Forall_forall in Hdot; [|exact He]. done. }
  split; [exact Hgen|].
  intros Hgz Htgz dir.
  destruct (Hgen (dir ++ ["data.tar.gz"]) ".tar.gz") as (stem & tail & Hname & Hk & Hmax & ->).
  { done. }
  { by rewrite name_snoc. }
  rewrite name_snoc in Hname, Hmax.
  apply (data_tar_gz_split stem tail); [done| |].
  - apply (Hmax ".tar.gz"); done.
  - apply lower_prefix_dot. by eapply Forall_forall in Hdot.
Qed.

(** ** The order of paths *)

Lemma string_leb_trans (a b c : string) :
  String.leb a b = true → String.leb b c = true → String.leb a c = true.
Proof.
  intros H1%Is_true_true H2%Is_true_true. apply Is_true_true.
  change (String.le a c). by trans b.
Qed.

Lemma path_leb_total (p q : Path) : PurePath.leb p q = true ∨ PurePath.leb q p = true.
Proof.
  revert q. induction p as [|a p IH]; intros [|b q]; simpl; auto.
  repeat case_decide; subst; try done; auto using String.leb_total.
Qed.

Lemma path_leb_trans (p q r : Path) :
  PurePath.leb p q = true → PurePath.leb q r = true → PurePath.leb p r = true.
Proof.
  revert q r. induction p as [|a p IH]; intros [|b q] [|c r]; simpl; try done.
  repeat case_decide; subst; try done; eauto using string_leb_trans.
  intros Hab Hba. exfalso. eauto using String.leb_antisym.
Qed.

Lemma path_leb_antisym (p q : Path) :
  PurePath.leb p q = true → PurePath.leb q p = true → p = q.
Proof.
  revert q. induction p as [|a p IH]; intros [|b q]; simpl; try done.
  repeat case_decide; subst; try done.
  - intros. f_equal. auto.
  - intros Hab Hba. exfalso. eauto using String.leb_antisym.
Qed.

(** ** Discovery *)

Section Discovery.
Context (formats : list (string * list string * string)) (extension_set : list string).
Context (glob rglob : Path → string → FS → list Path).

(** What [collect_archives] keeps of the paths the glob yields. *)
Lemma elem_of_collect_archives (plan : ExtractionPlan) (files : FS) (p : Path) :
  p ∈ collect_archives extension_set glob rglob plan files ↔
  p ∈ (if recursive plan then rglob else glob) (input_dir plan) (pattern plan) files ∧
  Os.is_file p files = true ∧
  ∃ ext, ext ∈ SUPPORTED_EXTENSIONS extension_set ∧
         Str.endswith (Str.lower (PurePath.name p)) ext = true.
Proof.
  unfold collect_archives.
  rewrite elem_of_sorted, !list_elem_of_filter, Is_true_true, existsb_exists.
  rewrite Is_true_true.
  setoid_rewrite <- list_elem_of_In.
  destruct (recursive plan); tauto.
Qed.

(** The order in which the glob yields the paths does not matter. *)
Lemma collect_archives_order_independent (glob' rglob' : Path → string → FS → list Path)
    (plan : ExtractionPlan) (files : FS) :
  (if recursive plan then rglob' else glob') (input_dir plan) (pattern plan) files ≡ₚ
  (if recursive plan then rglob else glob) (input_dir plan) (pattern plan) files →
  collect_archives extension_set glob' rglob' plan files =
  collect_archives extension_set glob rglob plan files.
Proof.
  intros Hperm. unfold collect_archives.
  apply (StronglySorted_unique_strong (λ p q, PurePath.leb p q = true)).
  - intros p q _ _. apply path_leb_antisym.
  - apply sorted_StronglySorted; [apply path_leb_total|apply path_leb_trans].
  - apply sorted_StronglySorted; [apply path_leb_total|apply path_leb_trans].
  - rewrite !sorted_perm. destruct (recursive plan); by rewrite Hperm.
Qed.

End Discovery.

(** C3.  Discovery returns exactly the paths the glob yields that are
    regular files and whose lowercased name ends with a known extension, in
    ascending order of paths, whatever the order in which the glob yields
    them; directories and other entries are left out, and when no path
    qualifies the result is the empty list. *)
Theorem collect_archives_exact
    (formats : list (string * list string * string)) (extension_set : list string)
    (glob rglob : Path → string → FS → list Path)
    (plan : ExtractionPlan) (files : FS) :
  extension_set_ok formats extension_set →
  let found :=
    (if recursive plan then rglob else glob) (input_dir plan) (pattern plan) files in
  let archive (p : Path) :=
    Os.is_file p files = true ∧
    ∃ ext, ext ∈ lowered_extensions formats ∧
           Str.endswith (Str.lower (PurePath.name p)) ext = true in
  let result := collect_archives extension_set glob rglob plan files in
  (∀ p, p ∈ result ↔ p ∈ found ∧ archive p) ∧
  StronglySorted (λ p q, PurePath.leb p q = true) result ∧
  (∀ glob' rglob' : Path → string → FS → list Path,
     (if recursive plan then rglob' else glob') (input_dir plan) (pattern plan) files
       ≡ₚ found →
     collect_archives extension_set glob' rglob' plan files = result) ∧
  (∀ p, p ∈ result → Os.is_dir p files = false) ∧
  ((∀ p, p ∈ found → ¬ archive p) → result = []).
Proof.
  intros Hok found archive result.
  assert (Hmem : ∀ p, p ∈ result ↔ p ∈ found ∧ archive p).
  { intros p. unfold result, archive. rewrite elem_of_collect_archives.
    setoid_rewrite (supported_extension_iff formats extension_set _ Hok). done. }
  split_and!.
  - exact Hmem.
  - apply sorted_StronglySorted; [apply path_leb_total|apply path_leb_trans].
  - intros glob' rglob' Hperm. by apply collect_archives_order_independent.
  - intros p (_ & Hfile & _)%Hmem. unfold Os.is_file, Os.is_dir in *.
    by destruct (files !! p) as [[]|].
  - intros Hnone. destruct result as [|p l] eqn:Hres; [done|].
    exfalso. apply (Hnone p); apply Hmem; by left.
Qed.

(** C10.  The lowercased name of every discovered archive ends with a
    supported extension, so for it the loop of [archive_stem] returns and
    the fallback to [path.stem] is not taken. *)
Theorem collected_archive_never_falls_back
    (extension_set : list string) (glob rglob : Path → string → FS → list Path)
    (plan : ExtractionPlan) (files : FS) (path : Path) :
  path ∈ collect_archives extension_set glob rglob plan files →
  (∃ ext, ext ∈ SUPPORTED_EXTENSIONS extension_set ∧
          Str.endswith (Str.lower (PurePath.name path)) ext = true) ∧
  ∃ stem,
    archive_stem_loop (PurePath.name path) (Str.lower (PurePath.name path))
      (SUPPORTED_EXTENSIONS extension_set) = Some stem ∧
    archive_stem extension_set path = stem.
Proof.
  intros (_ & _ & ext & Hin & Hends)%elem_of_collect_archives.
  split; [by exists ext|].
  unfold archive_stem.
  destruct (archive_stem_loop _ _ _) as [stem|] eqn:Hloop; [by exists stem|].
  eapply archive_stem_loop_none in Hloop; [|exact Hin]. congruence.
Qed.

(** ** File-system calls *)

Lemma path_exists_true (p : Path) (files : FS) :
  Os.path_exists p files = true ↔ is_Some (files !! p).
Proof. unfold Os.path_exists. by rewrite bool_decide_eq_true. Qed.

Lemma path_exists_false (p : Path) (files : FS) :
  Os.path_exists p files = false ↔ files !! p = None.
Proof.
  unfold Os.path_exists. by rewrite bool_decide_eq_false, eq_None_not_Some.
Qed.

Lemma mkdir_inr (p : Path) (files files' : FS) :
  Os.mkdir p files = inr files' → files !! p = None ∧ files' = <[p := Dir]> files.
Proof.
  unfold Os.mkdir. destruct (files !! p); [done|].
  destruct (files !! PurePath.parent p) as [[]|]; naive_solver.
Qed.

Lemma is_dir_Dir (p : Path) (files : FS) :
  files !! p = Some Dir → Os.is_dir p files = true.
Proof. unfold Os.is_dir. by intros ->. Qed.

Lemma is_dir_is_Some (p : Path) (files : FS) :
  Os.is_dir p files = true → is_Some (files !! p).
Proof. unfold Os.is_dir. by destruct (files !! p). Qed.

Lemma mkdir_fresh (p : Path) (files : FS) :
  files !! p = None → Os.is_dir (PurePath.parent p) files = true →
  Os.mkdir p files = inr (<[p := Dir]> files).
Proof.
  unfold Os.mkdir, Os.is_dir. intros ->.
  by destruct (files !! PurePath.parent p) as [[]|].
Qed.

Lemma makedirs_rev_mkdir (rp : list string) (files files' : FS) :
  Os.mkdir (reverse rp) files = inr files' → Os.makedirs_rev rp files = inr files'.
Proof. intros H. destruct rp; simpl; by rewrite H. Qed.

(** In a directory that exists, [mkdir(parents=True)] adds the one entry. *)
Lemma makedirs_fresh (p : Path) (files : FS) :
  files !! p = None → Os.is_dir (PurePath.parent p) files = true →
  Os.makedirs p files = inr (<[p := Dir]> files).
Proof.
  intros Hp Hparent. unfold Os.makedirs. apply makedirs_rev_mkdir.
  rewrite reverse_involutive. by apply mkdir_fresh.
Qed.

Lemma no_new_files_refl (files : FS) : no_new_files files files.
Proof. by intros p c. Qed.

Lemma no_new_files_trans (f1 f2 f3 : FS) :
  no_new_files f1 f2 → no_new_files f2 f3 → no_new_files f1 f3.
Proof. intros H12 H23 p c Hp. auto. Qed.

Lemma no_new_files_subseteq (files files' : FS) :
  files' ⊆ files → no_new_files files files'.
Proof. intros Hsub p c Hp. by eapply lookup_weaken. Qed.

Lemma no_new_files_insert_dir (p : Path) (files : FS) :
  files !! p = None → no_new_files files (<[p := Dir]> files).
Proof.
  intros Hp q c. destruct (decide (p = q)) as [->|Hne].
  - by rewrite lookup_insert_eq.
  - by rewrite lookup_insert_ne.
Qed.

Lemma mkdir_no_new_files (p : Path) (files files' : FS) :
  Os.mkdir p files = inr files' → no_new_files files files'.
Proof. intros [Hp ->]%mkdir_inr. by apply no_new_files_insert_dir. Qed.

Lemma makedirs_rev_no_new_files (rp : list string) (files files' : FS) :
  Os.makedirs_rev rp files = inr files' → no_new_files files files'.
Proof.
  revert files files'. induction rp as [|x rp IH]; intros files files'; simpl.
  - destruct (Os.mkdir _ files) as [[]|f1] eqn:Hm;
      try (destruct (Os.is_dir _ files); intros [= <-]; by apply no_new_files_refl);
      try done.
    intros [= <-]. by eapply mkdir_no_new_files.
  - destruct (Os.mkdir _ files) as [e|f1] eqn:Hm.
    + destruct e;
        try (destruct (Os.is_dir _ files); intros [= <-]; by apply no_new_files_refl).
      destruct (Os.makedirs_rev rp files) as [|f1] eqn:Hrec; [done|].
      apply IH in Hrec.
      destruct (Os.mkdir _ f1) as [e|f2] eqn:Hm2.
      * destruct (Os.is_dir _ f1); intros [= <-]; done.
      * intros [= <-]. eapply no_new_files_trans; [exact Hrec|].
        by eapply mkdir_no_new_files.
    + intros [= <-]. by eapply mkdir_no_new_files.
Qed.

Lemma makedirs_no_new_files (p : Path) (files files' : FS) :
  Os.makedirs p files = inr files' → no_new_files files files'.
Proof. apply makedirs_rev_no_new_files. Qed.

Lemma rmtree_no_new_files (p : Path) (files files' : FS) :
  Os.rmtree p files = inr files' → no_new_files files files'.
Proof.
  unfold Os.rmtree. destruct (files !! p) as [[]|]; try done.
  intros [= <-]. apply no_new_files_subseteq, map_filter_subseteq.
Qed.

Lemma unlink_no_new_files (p : Path) (files files' : FS) :
  Os.unlink p files = inr files' → no_new_files files files'.
Proof.
  unfold Os.unlink. destruct (files !! p) as [[]|]; try done; intros [= <-].
  - apply no_new_files_subseteq, delete_subseteq.
  - apply no_new_files_subseteq, map_filter_subseteq.
Qed.

(** ** Computations *)

Lemma bind_unfold {A B : Type} (m : M A) (f : A → M B) (w : World) :
  (m ≫= f) w =
    match m w with
    | Ok a w' => f a w'
    | Raise e w' => Raise e w'
    | OutOfFuel => OutOfFuel
    end.
Proof. reflexivity. Qed.

Lemma bind_ok {A B : Type} (m : M A) (f : A → M B) (w w' : World) (a : A) :
  m w = Ok a w' → (m ≫= f) w = f a w'.
Proof. intros H. by rewrite bind_unfold, H. Qed.

Lemma bind_ok_inv {A B : Type} (m : M A) (f : A → M B) (w w'' : World) (b : B) :
  (m ≫= f) w = Ok b w'' → ∃ a w', m w = Ok a w' ∧ f a w' = Ok b w''.
Proof. rewrite bind_unfold. destruct (m w) as [a w'| |]; naive_solver. Qed.

Section Preserves.
Context (R : World → World → Prop) `{!PreOrder R}.

Lemma preserves_ret {A : Type} (a : A) : preserves R (mret a : M A).
Proof. intros w w' [= <-]. reflexivity. Qed.

Lemma preserves_bind {A B : Type} (m : M A) (f : A → M B) :
  preserves R m → (∀ a, preserves R (f a)) → preserves R (m ≫= f).
Proof.
  intros Hm Hf w w'. rewrite bind_unfold.
  destruct (m w) as [a w1|e w1|] eqn:Hmw; [| |done].
  - intros Hfin. trans w1; [apply Hm; by rewrite Hmw|by eapply Hf].
  - intros [= <-]. apply Hm. by rewrite Hmw.
Qed.

Lemma preserves_ask_fs {A : Type} (f : FS → A) : preserves R (ask_fs f).
Proof. intros w w' [= <-]. reflexivity. Qed.

Lemma preserves_query_fs {A : Type} (f : FS → exn + A) : preserves R (query_fs f).
Proof.
  intros w w'. unfold query_fs. destruct (f (fs w)); intros [= <-]; reflexivity.
Qed.

Lemma preserves_try_except {A : Type} (body : M A) (caught : exn → bool)
    (handler : exn → M A) :
  preserves R body → (∀ e, preserves R (handler e)) →
  preserves R (try_except body caught handler).
Proof.
  intros Hb Hh w w'. unfold try_except.
  destruct (body w) as [a w1|e w1|] eqn:Hbw; [| |done].
  - intros [= <-]. apply Hb. by rewrite Hbw.
  - destruct (caught e).
    + intros Hfin. trans w1; [apply Hb; by rewrite Hbw|by eapply Hh].
    + intros [= <-]. apply Hb. by rewrite Hbw.
Qed.

(** From here on, [R] accepts every change of the file system that adds no
    regular file and leaves the pending input alone. *)
Hypothesis R_files :
  ∀ files files' lines,
    no_new_files files files' → R (mkWorld files lines) (mkWorld files' lines).

Lemma preserves_update_fs (f : FS → exn + FS) :
  (∀ files files', f files = inr files' → no_new_files files files') →
  preserves R (update_fs f).
Proof.
  intros Hf [files lines] w'. unfold update_fs. simpl.
  destruct (f files) as [e|files'] eqn:Hff; intros [= <-]; [reflexivity|].
  by apply R_files, Hf.
Qed.

Lemma preserves_overwrite_loop (children : list Path) :
  preserves R (overwrite_loop children).
Proof.
  induction children as [|child rest IH]; simpl.
  - apply preserves_ret.
  - apply preserves_bind; [apply preserves_ask_fs|]. intros d.
    apply preserves_bind; [|done].
    destruct d; apply preserves_update_fs.
    + apply rmtree_no_new_files.
    + apply unlink_no_new_files.
Qed.

Lemma preserves_rename_loop (fuel : nat) (dest : Path) (counter : nat) :
  preserves R (rename_loop fuel dest counter).
Proof.
  revert counter. induction fuel as [|fuel IH]; intros counter; simpl; [done|].
  apply preserves_bind; [apply preserves_ask_fs|]. intros [|]; [apply IH|].
  apply preserves_bind; [|intros; apply preserves_ret].
  apply preserves_update_fs, makedirs_no_new_files.
Qed.

Lemma preserves_ensure_destination (fuel : nat) (dest : Path) (on_existing : string) :
  preserves R (ensure_destination fuel dest on_existing).
Proof.
  unfold ensure_destination.
  apply preserves_bind; [apply preserves_ask_fs|]. intros present.
  destruct (negb present).
  { apply preserves_bind; [|intros; apply preserves_ret].
    apply preserves_update_fs, makedirs_no_new_files. }
  case_decide; [apply preserves_ret|].
  case_decide.
  { apply preserves_bind; [apply preserves_query_fs|]. intros children.
    apply preserves_bind; [|intros; apply preserves_ret].
    apply preserves_overwrite_loop. }
  case_decide; [|apply preserves_ret].
  apply preserves_bind; [|intros; apply preserves_ret].
  apply preserves_rename_loop.
Qed.

End Preserves.

(** The two relations in use: no regular file appears, and the pending
    input is not read. *)
Global Instance no_new_files_preorder :
  PreOrder (λ w w' : World, no_new_files (fs w) (fs w')).
Proof.
  split; [intros w; apply no_new_files_refl|].
  intros w1 w2 w3. apply no_new_files_trans.
Qed.

Global Instance same_stdin_preorder : PreOrder (λ w w' : World, stdin w' = stdin w).
Proof. split; [done|]. intros w1 w2 w3 H12 H23. congruence. Qed.

(** ** The rename policy *)

Lemma rename_name_proper (name suffix : string) :
  ¬ (name +:+ "_" +:+ suffix = "" ∨ name +:+ "_" +:+ suffix = ".").
Proof.
  destruct name as [|c [|c' r]]; intros [H|H]; discriminate H.
Qed.

(** The candidate is the sibling of [dest] named [<name>_<counter>]. *)
Lemma rename_candidate_sibling (dest : Path) (counter : nat) :
  rename_candidate dest counter =
    PurePath.parent dest ++ [PurePath.name dest +:+ "_" +:+ Str.of_nat counter].
Proof.
  unfold rename_candidate, PurePath.join.
  case_decide as H; [|done]. by apply rename_name_proper in H.
Qed.

Lemma rename_candidate_inj (dest : Path) (n m : nat) :
  rename_candidate dest n = rename_candidate dest m → n = m.
Proof.
  rewrite !rename_candidate_sibling. intros H%app_inv_head.
  injection H as H. apply String.app_inj in H. apply String.app_inj in H.
  by apply of_nat_inj.
Qed.

Lemma rename_candidate_parent (dest : Path) (counter : nat) :
  PurePath.parent (rename_candidate dest counter) = PurePath.parent dest.
Proof. rewrite rename_candidate_sibling. apply parent_snoc. Qed.

(** A file system that holds the candidates 1 to [k] has [k] entries. *)
Lemma rename_candidates_bound (dest : Path) (files : FS) (k : nat) :
  (∀ m, 1 ≤ m ≤ k → is_Some (files !! rename_candidate dest m)) → k ≤ size files.
Proof.
  intros Htaken.
  trans (length (rename_candidate dest <$> seq 1 k));
    [by rewrite length_fmap, length_seq|].
  trans (length ((map_to_list files).*1));
    [|by rewrite length_fmap, length_map_to_list].
  apply submseteq_length, NoDup_submseteq.
  - apply NoDup_fmap_2_strong; [|apply NoDup_seq].
    intros n m _ _. apply rename_candidate_inj.
  - intros p (m & -> & Hm%elem_of_seq)%list_elem_of_fmap.
    destruct (Htaken m) as [x Hx]; [lia|].
    apply list_elem_of_fmap. exists (rename_candidate dest m, x).
    split; [done|]. by apply elem_of_map_to_list.
Qed.

Lemma rename_search (dest : Path) (files : FS) (k : nat) :
  (∃ n, 1 ≤ n ≤ k ∧ files !! rename_candidate dest n = None ∧
        ∀ m, 1 ≤ m < n → is_Some (files !! rename_candidate dest m)) ∨
  (∀ m, 1 ≤ m ≤ k → is_Some (files !! rename_candidate dest m)).
Proof.
  induction k as [|k [(n & Hn & Hfree & Hmin)|Hall]].
  - right. intros m Hm. lia.
  - left. exists n. split; [lia|]. by split.
  - destruct (files !! rename_candidate dest (S k)) as [x|] eqn:Hk.
    + right. intros m Hm. destruct (decide (m = S k)) as [->|]; [by exists x|].
      apply Hall. lia.
    + left. exists (S k). split; [lia|]. split; [done|].
      intros m Hm. apply Hall. lia.
Qed.

(** Some candidate is unused, and the first such is found within
    [size files + 1] rounds. *)
Lemma rename_first_unused (dest : Path) (files : FS) :
  ∃ n, 1 ≤ n ≤ S (size files) ∧ files !! rename_candidate dest n = None ∧
       ∀ m, 1 ≤ m < n → is_Some (files !! rename_candidate dest m).
Proof.
  destruct (rename_search dest files (S (size files))) as [H|Hall]; [done|].
  apply rename_candidates_bound in Hall. lia.
Qed.

Lemma rename_loop_finds (fuel : nat) (dest : Path) (counter n : nat) (w : World) :
  counter ≤ n → n - counter < fuel →
  (∀ m, counter ≤ m < n → is_Some (fs w !! rename_candidate dest m)) →
  fs w !! rename_candidate dest n = None →
  rename_loop fuel dest counter w =
    (update_fs (Os.makedirs (rename_candidate dest n));;
     mret (rename_candidate dest n)) w.
Proof.
  revert counter. induction fuel as [|fuel IH]; intros counter Hle Hfuel Htaken Hfree;
    [lia|].
  simpl. rewrite bind_unfold. unfold ask_fs at 1.
  destruct (decide (counter = n)) as [->|Hne].
  - apply path_exists_false in Hfree. by rewrite Hfree.
  - assert (Os.path_exists (rename_candidate dest counter) (fs w) = true) as ->.
    { apply path_exists_true, Htaken. lia. }
    apply IH; [lia|lia| |done]. intros m Hm. apply Htaken. lia.
Qed.

Lemma fs_wf_parent (files : FS) (p : Path) :
  fs_wf files → is_Some (files !! p) → Os.is_dir (PurePath.parent p) files = true.
Proof.
  intros [_ Hwf] [x Hx]. exact (map_Forall_lookup_1 _ _ _ _ Hwf Hx).
Qed.

Lemma ensure_destination_rename (fuel : nat) (dest : Path) (w : World) (n : nat) :
  fs_wf (fs w) → is_Some (fs w !! dest) → n < S fuel → 1 ≤ n →
  (∀ m, 1 ≤ m < n → is_Some (fs w !! rename_candidate dest m)) →
  fs w !! rename_candidate dest n = None →
  ensure_destination fuel dest "rename" w =
    Ok (Some (rename_candidate dest n))
       (mkWorld (<[rename_candidate dest n := Dir]> (fs w)) (stdin w)).
Proof.
  intros Hwf Hdest Hfuel Hn Htaken Hfree. unfold ensure_destination.
  rewrite bind_unfold. unfold ask_fs at 1.
  apply path_exists_true in Hdest as Hex. rewrite Hex. simpl.
  rewrite bind_unfold, (rename_loop_finds fuel dest 1 n); [|lia|lia|done|done].
  rewrite bind_unfold. unfold update_fs.
  rewrite makedirs_fresh; [done|done|].
  rewrite rename_candidate_parent. by apply fs_wf_parent.
Qed.

(** C4.  Under the rename policy, for a destination that exists in a
    well-formed file system and a bound on the search above the number of
    entries: the candidates are the siblings [<name>_<N>], and the resolver
    creates and returns the one with the smallest [N >= 1] that does not
    exist.  In particular, for [out] when [out] and [out_1] exist and
    [out_2] does not, it returns [out_2]. *)
Theorem rename_picks_first_unused (fuel : nat) (dest : Path) (w : World) :
  fs_wf (fs w) →
  Os.path_exists dest (fs w) = true →
  size (fs w) < fuel →
  (∀ n, rename_candidate dest n =
        PurePath.parent dest ++ [PurePath.name dest +:+ "_" +:+ Str.of_nat n]) ∧
  (∃ n, 1 ≤ n ∧
        (∀ m, 1 ≤ m < n → Os.path_exists (rename_candidate dest m) (fs w) = true) ∧
        Os.path_exists (rename_candidate dest n) (fs w) = false ∧
        ensure_destination fuel dest "rename" w =
          Ok (Some (rename_candidate dest n))
             (mkWorld (<[rename_candidate dest n := Dir]> (fs w)) (stdin w))) ∧
  (∀ dir : Path,
     dest = dir ++ ["out"] →
     Os.path_exists (dir ++ ["out_1"]) (fs w) = true →
     Os.path_exists (dir ++ ["out_2"]) (fs w) = false →
     ensure_destination fuel dest "rename" w =
       Ok (Some (dir ++ ["out_2"]))
          (mkWorld (<[dir ++ ["out_2"] := Dir]> (fs w)) (stdin w))).
Proof.
  intros Hwf Hdest%path_exists_true Hfuel. split_and!.
  - apply rename_candidate_sibling.
  - destruct (rename_first_unused dest (fs w)) as (n & Hn & Hfree & Htaken).
    exists n. split_and!.
    + lia.
    + intros m Hm. by apply path_exists_true, Htaken.
    + by apply path_exists_false.
    + apply ensure_destination_rename; [done|done|lia|lia|done|done].
  - intros dir -> H1%path_exists_true H2%path_exists_false.
    assert (Hc1 : rename_candidate (dir ++ ["out"]) 1 = dir ++ ["out_1"])
      by (by rewrite rename_candidate_sibling, parent_snoc, name_snoc).
    assert (Hc2 : rename_candidate (dir ++ ["out"]) 2 = dir ++ ["out_2"])
      by (by rewrite rename_candidate_sibling, parent_snoc, name_snoc).
    rewrite <- Hc2. apply ensure_destination_rename; [done|done| |lia| |].
    + assert (1 ≤ size (fs w)); [|lia].
      apply (rename_candidates_bound (dir ++ ["out"])).
      intros m Hm. assert (m = 1) as -> by lia. by rewrite Hc1.
    + intros m Hm. assert (m = 1) as -> by lia. by rewrite Hc1.
    + by rewrite Hc2.
Qed.

(** ** The overwrite policy *)

Lemma child_of_iff (dest c : Path) : Os.child_of dest c ↔ ∃ x, c = dest ++ [x].
Proof.
  unfold Os.child_of, PurePath.parent. split.
  - intros [Hne <-]. exists (List.last c ""). by apply app_removelast_last.
  - intros [x ->]. split; [by destruct dest|apply removelast_last].
Qed.

Lemma child_of_below (dest c q : Path) :
  Os.child_of dest c → c `prefix_of` q → below dest q.
Proof.
  intros [x ->]%child_of_iff Hpre. split; [by eapply prefix_app_l|].
  intros ->. by eapply prefix_snoc_not.
Qed.

Lemma child_of_prefix_eq (dest c c' q : Path) :
  Os.child_of dest c → Os.child_of dest c' →
  c `prefix_of` q → c' `prefix_of` q → c = c'.
Proof.
  intros [x ->]%child_of_iff [x' ->]%child_of_iff Hc Hc'.
  destruct (prefix_weak_total _ _ _ Hc Hc') as [H|H];
    [|symmetry]; apply prefix_length_eq; try done;
    rewrite !length_app; simpl; lia.
Qed.

(** Every ancestor of an entry of a well-formed file system is a directory. *)
Lemma fs_wf_ancestor (files : FS) (p q : Path) :
  fs_wf files → is_Some (files !! q) → p `prefix_of` q → p ≠ q →
  Os.is_dir p files = true.
Proof.
  intros Hwf Hq [k ->]. revert Hq. induction k as [|x k IH] using rev_ind.
  - rewrite app_nil_r. done.
  - intros Hq _. rewrite app_assoc in Hq.
    apply (fs_wf_parent _ _ Hwf) in Hq. rewrite parent_snoc in Hq.
    destruct (decide (k = [])) as [->|Hk]; [by rewrite app_nil_r in Hq|].
    apply IH; [by apply is_dir_is_Some|].
    intros Heq. apply (f_equal length) in Heq. rewrite length_app in Heq.
    destruct k; [done|]. simpl in Heq. lia.
Qed.

(** An entry strictly below [dest] lies under an entry of [dest]. *)
Lemma below_child (dest q : Path) :
  below dest q → ∃ c, Os.child_of dest c ∧ c `prefix_of` q.
Proof.
  intros [[k ->] Hne]. destruct k as [|x k]; [by rewrite app_nil_r in Hne|].
  exists (dest ++ [x]). split; [apply child_of_iff; by exists x|].
  exists k. by rewrite <- app_assoc.
Qed.

Lemma iterdir_dir (dest : Path) (files : FS) :
  Os.is_dir dest files = true →
  ∃ children, Os.iterdir dest files = inr children ∧ NoDup children ∧
    ∀ c, c ∈ children ↔ Os.child_of dest c ∧ is_Some (files !! c).
Proof.
  intros Hdest. unfold Os.iterdir. unfold Os.is_dir in Hdest.
  exists (filter (Os.child_of dest) (map fst (map_to_list files))).
  split; [by destruct (files !! dest) as [[]|]|]. split.
  - apply NoDup_filter, NoDup_fst_map_to_list.
  - intros c. rewrite list_elem_of_filter, list_elem_of_fmap.
    split.
    + intros [Hc ([c' x] & -> & Hx%elem_of_map_to_list)]. eauto.
    + intros [Hc [x Hx]]. split; [done|]. exists (c, x).
      split; [done|]. by apply elem_of_map_to_list.
Qed.

Lemma rmtree_lookup (c q : Path) (files : FS) :
  filter (λ kv : Path * node, ¬ c `prefix_of` kv.1) files !! q =
    if decide (c `prefix_of` q) then None else files !! q.
Proof.
  case_decide as Hpre.
  - apply map_lookup_filter_None. right. intros x _ Hn. by apply Hn.
  - destruct (files !! q) as [x|] eqn:Hq.
    + by apply map_lookup_filter_Some.
    + apply map_lookup_filter_None. by left.
Qed.

(** The loop over the entries of [dest], none of which is a link to a
    directory: the subtrees of the entries still to come are as in the file
    system [files0] the loop started from; at the end all of them are gone
    and nothing else has changed. *)
Lemma overwrite_loop_clears (dest : Path) (files0 : FS) (lines : list string) :
  fs_wf files0 →
  ∀ (children : list Path) (cur : FS),
    NoDup children →
    (∀ c, c ∈ children → Os.child_of dest c ∧ is_Some (files0 !! c)) →
    (∀ c, c ∈ children → files0 !! c ≠ Some DirLink) →
    (∀ q, Exists (λ c, c `prefix_of` q) children → cur !! q = files0 !! q) →
    ∃ cur',
      overwrite_loop children (mkWorld cur lines) = Ok () (mkWorld cur' lines) ∧
      (∀ q, Exists (λ c, c `prefix_of` q) children → cur' !! q = None) ∧
      (∀ q, ¬ Exists (λ c, c `prefix_of` q) children → cur' !! q = cur !! q).
Proof.
  intros Hwf children. induction children as [|c rest IH];
    intros cur Hnodup Hchildren Hnolink Hsame.
  - exists cur. split; [done|]. split; [|done].
    intros q Hq. by apply Exists_nil in Hq.
  - apply NoDup_cons in Hnodup as [Hc_rest Hnodup].
    destruct (Hchildren c) as [Hc [x Hx]]; [by left|].
    assert (Hreal : x ≠ DirLink).
    { intros ->. by apply (Hnolink c); [left|]. }
    assert (Hcur_c : cur !! c = Some x).
    { rewrite Hsame; [done|]. by left. }
    assert (Hother : ∀ q, Exists (λ c', c' `prefix_of` q) rest → ¬ c `prefix_of` q).
    { intros q (c' & Hc' & Hpre')%Exists_exists Hpre.
      apply Hc_rest. destruct (Hchildren c') as [Hcc' _]; [by right|].
      by rewrite (child_of_prefix_eq dest c c' q). }
    simpl. rewrite bind_unfold. unfold ask_fs at 1, Os.is_dir. simpl.
    rewrite Hcur_c. destruct x as [content| |]; [| |done].
    + (* a regular file: [unlink] *)
      rewrite bind_unfold. unfold update_fs at 1, Os.unlink. simpl. rewrite Hcur_c.
      destruct (IH (delete c cur)) as (cur' & Hrun & Hgone & Hkept).
      { done. }
      { intros c' Hc'. apply Hchildren. by right. }
      { intros c' Hc'. apply Hnolink. by right. }
      { intros q Hq. rewrite lookup_delete_ne.
        - apply Hsame. by right.
        - intros <-. by apply (Hother c). }
      exists cur'. split; [done|]. split.
      * intros q [Hpre|Hq]%Exists_cons; [|by apply Hgone].
        destruct (decide (Exists (λ c', c' `prefix_of` q) rest)) as [|Hn];
          [by apply Hgone|].
        rewrite Hkept by done.
        destruct (decide (c = q)) as [<-|Hne]; [by rewrite lookup_delete_eq|].
        rewrite lookup_delete_ne by done.
        rewrite Hsame by (by left).
        apply eq_None_not_Some. intros Hq.
        pose proof (fs_wf_ancestor files0 c q Hwf Hq Hpre Hne) as Hdir.
        unfold Os.is_dir in Hdir. by rewrite Hx in Hdir.
      * intros q Hq. rewrite Hkept by (intros ?; apply Hq; by right).
        apply lookup_delete_ne. intros <-. apply Hq. by left.
    + (* a directory: [rmtree] *)
      rewrite bind_unfold. unfold update_fs at 1, Os.rmtree. simpl. rewrite Hcur_c.
      destruct (IH (filter (λ kv : Path * node, ¬ c `prefix_of` kv.1) cur))
        as (cur' & Hrun & Hgone & Hkept).
      { done. }
      { intros c' Hc'. apply Hchildren. by right. }
      { intros c' Hc'. apply Hnolink. by right. }
      { intros q Hq. rewrite rmtree_lookup.
        case_decide as Hpre; [by apply Hother in Hq|]. apply Hsame. by right. }
      exists cur'. split; [done|]. split.
      * intros q [Hpre|Hq]%Exists_cons; [|by apply Hgone].
        destruct (decide (Exists (λ c', c' `prefix_of` q) rest)) as [|Hn];
          [by apply Hgone|].
        rewrite Hkept by done. rewrite rmtree_lookup. by case_decide.
      * intros q Hq. rewrite Hkept by (intros ?; apply Hq; by right).
        rewrite rmtree_lookup. case_decide as Hpre; [|done].
        exfalso. apply Hq. by left.
Qed.

(** C5.  The overwrite branch does not always empty the destination.  In
    [dest/out] with an entry [ln] that is a symbolic link to a directory,
    [child.is_dir()] holds for the link and [shutil.rmtree] refuses it: the
    resolver ends with [OSError] instead of returning the destination, and
    the link is still in the directory. *)
Theorem overwrite_stops_at_directory_link :
  ∃ w',
    ensure_destination 20 ["dest"; "out"] "overwrite" Cases.linked_world =
      Raise OSError w' ∧
    fs w' !! ["dest"; "out"] = Some Dir ∧
    fs w' !! ["dest"; "out"; "ln"] = Some DirLink.
Proof.
  exists (res_world Scenario.world
            (ensure_destination 20 ["dest"; "out"] "overwrite" Cases.linked_world)).
  split_and!;
    match goal with
    | |- ?P => apply (bool_decide_eq_true_1 P); vm_compute; reflexivity
    end.
Qed.

(** ** Prompting and the policy *)

Lemma prompt_choice_loop_fs (choices : list string) (default : string)
    (lines : list string) (files : FS) (w' : World) :
  final_world (prompt_choice_loop choices default lines files) = Some w' →
  fs w' = files.
Proof.
  induction lines as [|line rest IH]; simpl.
  - by intros [= <-].
  - case_decide; [by intros [= <-]|done].
Qed.

Lemma prompt_choice_fs (choices : list string) (default : string) (w w' : World) :
  final_world (prompt_choice choices default w) = Some w' → fs w' = fs w.
Proof. apply prompt_choice_loop_fs. Qed.

(** The [while True] loop of [prompt_choice], one round at a time. *)
Lemma prompt_choice_unfold (choices : list string) (default : string) (w : World) :
  prompt_choice choices default w =
    (value ← prompt default;
     if decide (value ∈ choices) then mret value
     else prompt_choice choices default) w.
Proof.
  destruct w as [files [|line rest]]; unfold prompt_choice; simpl; [done|].
  rewrite !bind_unfold. simpl. by case_decide.
Qed.

(** With a policy other than [ask], or a destination that does not exist,
    the operator is not asked. *)
Lemma handle_existing_dest_direct (fuel : nat) (dest : Path) (on_existing : string)
    (w : World) :
  on_existing ≠ "ask" ∨ Os.path_exists dest (fs w) = false →
  handle_existing_dest fuel dest on_existing w =
    (r ← ensure_destination fuel dest on_existing; mret (r, on_existing)) w.
Proof.
  intros H. unfold handle_existing_dest. rewrite bind_unfold. unfold ask_fs at 1.
  destruct H as [Hne| ->]; [|done].
  rewrite (bool_decide_eq_false_2 _ Hne). by rewrite orb_true_r.
Qed.

(** An [-all] reply to the prompt applies the base policy now and returns it
    as the policy to carry on with. *)
Lemma handle_existing_dest_escalate (fuel : nat) (dest : Path) (base : string)
    (w w' : World) :
  base ∈ ["skip"; "overwrite"; "rename"] →
  Os.path_exists dest (fs w) = true →
  prompt_choice
    ["skip"; "overwrite"; "rename"; "skip-all"; "overwrite-all"; "rename-all"]
    "skip" w = Ok (base +:+ "-all") w' →
  handle_existing_dest fuel dest "ask" w =
    (r ← ensure_destination fuel dest base; mret (r, base)) w'.
Proof.
  intros Hbase Hex Hprompt. unfold handle_existing_dest.
  rewrite bind_unfold. unfold ask_fs at 1. rewrite Hex. simpl.
  rewrite bind_unfold, Hprompt.
  repeat (apply elem_of_cons in Hbase as [->|Hbase]); [done..|].
  by apply elem_of_nil in Hbase.
Qed.

Lemma handle_existing_dest_skip (fuel : nat) (dest : Path) (w : World) :
  Os.path_exists dest (fs w) = true →
  handle_existing_dest fuel dest "skip" w = Ok (None, "skip") w.
Proof.
  intros Hex. rewrite handle_existing_dest_direct by (by left).
  rewrite bind_unfold. unfold ensure_destination. rewrite bind_unfold.
  unfold ask_fs at 1. by rewrite Hex.
Qed.

Lemma preserves_handle_existing_dest_files (fuel : nat) (dest : Path)
    (on_existing : string) :
  preserves (λ w w', no_new_files (fs w) (fs w'))
    (handle_existing_dest fuel dest on_existing).
Proof.
  assert (Hens : ∀ pol, preserves (λ w w', no_new_files (fs w) (fs w'))
                          (ensure_destination fuel dest pol)).
  { intros pol. apply preserves_ensure_destination; [apply _|done]. }
  unfold handle_existing_dest.
  apply preserves_bind; [apply _|apply preserves_ask_fs; apply _|]. intros present.
  destruct (negb present || negb (bool_decide (on_existing = "ask"))).
  { apply preserves_bind; [apply _|apply Hens|]. intros r. apply preserves_ret, _. }
  apply preserves_bind; [apply _| |].
  { intros w w' Hfin%prompt_choice_fs. rewrite Hfin. apply no_new_files_refl. }
  intros choice. destruct (Str.endswith choice "-all");
    (apply preserves_bind; [apply _|apply Hens|intros r; apply preserves_ret, _]).
Qed.

Lemma preserves_handle_existing_dest_stdin (fuel : nat) (dest : Path)
    (on_existing : string) :
  on_existing ≠ "ask" →
  preserves (λ w w', stdin w' = stdin w) (handle_existing_dest fuel dest on_existing).
Proof.
  intros Hne w w'. rewrite handle_existing_dest_direct by (by left). revert w w'.
  apply preserves_bind; [apply _| |intros r; apply preserves_ret, _].
  apply preserves_ensure_destination; [apply _|done].
Qed.

Lemma handle_existing_dest_policy (fuel : nat) (dest : Path) (on_existing : string)
    (w w' : World) (r : option Path) (on_existing' : string) :
  on_existing ≠ "ask" →
  handle_existing_dest fuel dest on_existing w = Ok (r, on_existing') w' →
  on_existing' = on_existing.
Proof.
  intros Hne. rewrite handle_existing_dest_direct by (by left).
  intros (r' & w1 & _ & [= _ <- _])%bind_ok_inv. done.
Qed.

(** ** The batch loop *)

Lemma count_use_cons (d : option Path) (ds : list (option Path)) :
  count_use (d :: ds) = match d with Some _ => 1 | None => 0 end + count_use ds.
Proof.
  unfold count_use. rewrite filter_cons.
  destruct d, (decide _) as [H|H]; simpl; try done.
  by destruct H.
Qed.

Lemma count_skip_cons (d : option Path) (ds : list (option Path)) :
  count_skip (d :: ds) = match d with Some _ => 0 | None => 1 end + count_skip ds.
Proof.
  unfold count_skip. rewrite filter_cons.
  destruct d, (decide _) as [H|H]; simpl; done.
Qed.

Lemma count_use_skip (ds : list (option Path)) :
  count_use ds + count_skip ds = length ds.
Proof.
  induction ds as [|d ds IH]; [done|].
  rewrite count_use_cons, count_skip_cons. destruct d; simpl; lia.
Qed.

Section Batch.
Context (extension_set : list string).
Context (unpack_archive : Path → Path → FS → option exn * FS).

Local Abbreviation loop := (extract_loop extension_set unpack_archive).
Local Abbreviation dest_of plan archive :=
  (PurePath.join (output_dir plan) (archive_stem extension_set archive)).

(** The loop over [pre ++ post] is the loop over [pre] followed by the loop
    over [post] from the local variables and the world that [pre] left. *)
Lemma extract_loop_app (fuel : nat) (plan : ExtractionPlan) (pre post : list Path)
    (st : Locals) (w : World) :
  loop fuel plan (pre ++ post) st w =
    (st1 ← loop fuel plan pre st; loop fuel plan post st1) w.
Proof.
  revert st w. induction pre as [|archive pre IH]; intros st w; [done|].
  simpl. rewrite !bind_unfold.
  destruct (handle_existing_dest _ _ _ w) as [[[d|] pol] w1|e w1|];
    [|apply IH|done|done].
  destruct (dry_run plan); [apply IH|].
  rewrite !bind_unfold.
  destruct (try_except _ _ _ w1) as [st1 w2|e w2|]; [apply IH|done|done].
Qed.

(** One round of the loop adds one to exactly one counter. *)
Lemma extract_loop_step (fuel : nat) (plan : ExtractionPlan) (archive : Path)
    (rest : list Path) (st : Locals) (w : World) :
  match handle_existing_dest fuel (dest_of plan archive) (policy st) w with
  | OutOfFuel => loop fuel plan (archive :: rest) st w = OutOfFuel
  | Raise e w1 => loop fuel plan (archive :: rest) st w = Raise e w1
  | Ok (_, pol) w1 =>
      (∃ e w2, loop fuel plan (archive :: rest) st w = Raise e w2) ∨
      ∃ st1 w2,
        loop fuel plan (archive :: rest) st w = loop fuel plan rest st1 w2 ∧
        policy st1 = pol ∧
        (stdin w2 = stdin w1) ∧
        ((n_extracted st1, n_skipped st1, n_failed st1) =
           (n_extracted st + 1, n_skipped st, n_failed st) ∨
         (n_extracted st1, n_skipped st1, n_failed st1) =
           (n_extracted st, n_skipped st + 1, n_failed st) ∨
         (n_extracted st1, n_skipped st1, n_failed st1) =
           (n_extracted st, n_skipped st, n_failed st + 1))
  end.
Proof.
  simpl. rewrite bind_unfold.
  destruct (handle_existing_dest _ _ _ w) as [[[d|] pol] w1|e w1|]; try done.
  - destruct (dry_run plan).
    { right. eexists _, w1. split; [done|]. simpl. auto. }
    rewrite bind_unfold. unfold try_except. rewrite bind_unfold.
    unfold shutil_unpack_archive.
    destruct (unpack_archive archive d (fs w1)) as [[exc|] files'].
    + destruct (extraction_error exc).
      * right. eexists _, _. split; [done|]. simpl. auto.
      * left. eauto.
    + right. eexists _, _. split; [done|]. simpl. auto.
  - right. eexists _, w1. split; [done|]. simpl. auto.
Qed.


(** Under a policy other than [ask] the loop keeps the policy and never
    reads the input. *)
Lemma extract_loop_no_ask (fuel : nat) (plan : ExtractionPlan) (archives : list Path)
    (st st' : Locals) (w w' : World) :
  policy st ≠ "ask" →
  loop fuel plan archives st w = Ok st' w' →
  policy st' = policy st ∧ stdin w' = stdin w.
Proof.
  revert st w. induction archives as [|archive rest IH]; intros st w Hne.
  - by intros [= <- <-].
  - pose proof (extract_loop_step fuel plan archive rest st w) as Hstep.
    destruct (handle_existing_dest _ _ _ w) as [[d pol] w1|e w1|] eqn:Hh;
      [|congruence..].
    pose proof (handle_existing_dest_policy _ _ _ _ _ _ _ Hne Hh) as ->.
    assert (Hin : stdin w1 = stdin w).
    { apply (preserves_handle_existing_dest_stdin fuel (dest_of plan archive)
               (policy st) Hne). by rewrite Hh. }
    destruct Hstep as [(e & w2 & ->)|(st1 & w2 & -> & Hpol & Hin2 & _)]; [done|].
    intros Hrest. apply IH in Hrest as [-> ->]; [|by rewrite Hpol].
    split; congruence.
Qed.

(** In a dry run the loop is the resolution of the destinations, and its
    counters are the tally of the decisions. *)
Lemma extract_loop_dry_run (fuel : nat) (plan : ExtractionPlan) (archives : list Path)
    (st : Locals) (w : World) :
  dry_run plan = true →
  res_map (λ st', mkResult (n_extracted st') (n_skipped st') (n_failed st'))
    (loop fuel plan archives st w) =
  res_map (λ ds, mkResult (n_extracted st + count_use ds)
                          (n_skipped st + count_skip ds) (n_failed st))
    (resolve_destinations extension_set fuel plan archives (policy st) w).
Proof.
  intros Hdry. revert st w. induction archives as [|archive rest IH]; intros st w.
  - simpl. unfold mret, M_ret. simpl. f_equal.
    f_equal; unfold count_use, count_skip; simpl; lia.
  - simpl. rewrite !bind_unfold.
    destruct (handle_existing_dest _ _ _ w) as [[[d|] pol] w1|e w1|];
      [rewrite Hdry| |done|done];
      rewrite IH; simpl; rewrite bind_unfold;
      (destruct (resolve_destinations _ _ _ _ _ w1) as [ds w2|e w2|];
       [|done|done]);
      unfold mret, M_ret; simpl;
      rewrite count_use_cons, count_skip_cons; simpl; f_equal; f_equal; lia.
Qed.

Lemma bind_ret_res_map {A B : Type} (m : M A) (f : A → B) (w : World) :
  (a ← m; mret (f a)) w = res_map f (m w).
Proof. rewrite bind_unfold. by destruct (m w). Qed.

Lemma preserves_extract_loop_dry_run (fuel : nat) (plan : ExtractionPlan)
    (archives : list Path) (st : Locals) :
  dry_run plan = true →
  preserves (λ w w', no_new_files (fs w) (fs w')) (loop fuel plan archives st).
Proof.
  intros Hdry. revert st. induction archives as [|archive rest IH]; intros st; simpl.
  - apply preserves_ret, _.
  - apply preserves_bind; [apply _|apply preserves_handle_existing_dest_files|].
    intros [[d|] pol]; [rewrite Hdry|]; apply IH.
Qed.

End Batch.

Lemma resolve_destinations_length (extension_set : list string) (fuel : nat)
    (plan : ExtractionPlan) (archives : list Path) (on_existing : string)
    (w w' : World) (ds : list (option Path)) :
  resolve_destinations extension_set fuel plan archives on_existing w = Ok ds w' →
  length ds = length archives.
Proof.
  revert on_existing w ds. induction archives as [|a rest IH]; intros pol w ds.
  - by intros [= <- _].
  - simpl.
    intros (r & w2 & _ & (ds' & w3 & Hrest & Hret)%bind_ok_inv)%bind_ok_inv.
    unfold mret, M_ret in Hret. injection Hret as <- <-.
    simpl. f_equal. by eapply IH.
Qed.

(** C1.  In a run under [ask], let the archives [pre] be processed and the
    policy still be [ask]; let the next archive collide and the operator
    answer the prompt with [<base>-all].  Then the run goes on exactly as a
    run under [base] from that archive, with the counters and the file
    system that the earlier archives left; under [base] no later archive is
    prompted for and the policy stays [base]; and under [skip] every later
    colliding archive is skipped with the world untouched. *)
Theorem escalation_replaces_policy
    (extension_set : list string)
    (unpack_archive : Path → Path → FS → option exn * FS)
    (fuel : nat) (plan : ExtractionPlan) (pre post : list Path) (archive : Path)
    (st0 st1 : Locals) (w0 w1 w1' : World) (base : string) :
  base ∈ ["skip"; "overwrite"; "rename"] →
  extract_loop extension_set unpack_archive fuel plan pre st0 w0 = Ok st1 w1 →
  policy st1 = "ask" →
  Os.path_exists
    (PurePath.join (output_dir plan) (archive_stem extension_set archive))
    (fs w1) = true →
  prompt_choice
    ["skip"; "overwrite"; "rename"; "skip-all"; "overwrite-all"; "rename-all"]
    "skip" w1 = Ok (base +:+ "-all") w1' →
  fs w1' = fs w1 ∧
  extract_loop extension_set unpack_archive fuel plan (pre ++ archive :: post) st0 w0 =
    extract_loop extension_set unpack_archive fuel plan (archive :: post)
      (mkLocals base (n_extracted st1) (n_skipped st1) (n_failed st1)) w1' ∧
  (∀ dest w,
     handle_existing_dest fuel dest base w =
       (r ← ensure_destination fuel dest base; mret (r, base)) w) ∧
  (∀ archives st w st' w',
     policy st = base →
     extract_loop extension_set unpack_archive fuel plan archives st w = Ok st' w' →
     policy st' = base ∧ stdin w' = stdin w) ∧
  (base = "skip" →
   ∀ dest w, Os.path_exists dest (fs w) = true →
             handle_existing_dest fuel dest base w = Ok (None, "skip") w).
Proof.
  intros Hbase Hpre Hask Hex Hprompt.
  assert (Hne : base ≠ "ask").
  { repeat (apply elem_of_cons in Hbase as [->|Hbase]); [done..|].
    by apply elem_of_nil in Hbase. }
  split_and!.
  - eapply prompt_choice_fs. by rewrite Hprompt.
  - rewrite extract_loop_app, (bind_ok _ _ _ _ _ Hpre). simpl.
    rewrite !bind_unfold, Hask.
    rewrite (handle_existing_dest_escalate fuel _ base w1 w1') by done.
    by rewrite (handle_existing_dest_direct fuel _ base w1') by (by left).
  - intros dest w. apply handle_existing_dest_direct. by left.
  - intros archives st w st' w' Hpol Hrun.
    apply extract_loop_no_ask in Hrun as [? ?]; [|by rewrite Hpol].
    split; congruence.
  - intros -> dest w. apply handle_existing_dest_skip.
Qed.

(** C6.  In a dry run the batch is the resolution of the destinations and
    nothing else: its outcome is that of [resolve_destinations], which has
    no unpacker, with every decision to use a directory counted as
    extracted, every skip as skipped, and zero failed; and every regular
    file of the final file system was there, with the same content, at the
    start. *)
Theorem dry_run_never_unpacks
    (extension_set : list string)
    (unpack_archive : Path → Path → FS → option exn * FS)
    (fuel : nat) (plan : ExtractionPlan) (archives : list Path) (w : World) :
  dry_run plan = true →
  extract_archives extension_set unpack_archive fuel plan archives w =
    (ds ← resolve_destinations extension_set fuel plan archives (on_existing plan);
     mret (mkResult (count_use ds) (count_skip ds) 0)) w ∧
  (∀ result w',
     extract_archives extension_set unpack_archive fuel plan archives w = Ok result w' →
     failed result = 0 ∧ extracted result + skipped result = length archives) ∧
  (∀ w',
     final_world (extract_archives extension_set unpack_archive fuel plan archives w)
       = Some w' →
     no_new_files (fs w) (fs w')).
Proof.
  intros Hdry.
  assert (Heq : extract_archives extension_set unpack_archive fuel plan archives w =
    (ds ← resolve_destinations extension_set fuel plan archives (on_existing plan);
     mret (mkResult (count_use ds) (count_skip ds) 0)) w).
  { unfold extract_archives. rewrite !bind_ret_res_map.
    by rewrite extract_loop_dry_run. }
  split_and!.
  - exact Heq.
  - rewrite Heq. intros result w' (ds & w1 & Hds & [= <- _])%bind_ok_inv. simpl.
    split; [done|]. rewrite count_use_skip.
    by eapply resolve_destinations_length.
  - assert (Hp : preserves (λ w w', no_new_files (fs w) (fs w'))
                   (extract_archives extension_set unpack_archive fuel plan archives)).
    { unfold extract_archives.
      apply preserves_bind; [apply _| |intros st; apply preserves_ret, _].
      by apply preserves_extract_loop_dry_run. }
    intros w'. apply Hp.
Qed.

(** C7.  A bad archive can abort the batch.  With an unpacker for which
    [b.tgz] has a damaged member, the batch of the scenario under [skip]
    extracts [a.zip] and ends at [b.tgz] with the exception of the archive
    library: no result is returned, [b.tgz] is not counted as failed, and
    [out.tar.gz] and [out_1.ZIP] are not processed. *)
Theorem malformed_archive_aborts_batch :
  Scenario.archives =
    [["in"; "a.zip"]; ["in"; "b.tgz"]; ["in"; "out.tar.gz"]; ["in"; "out_1.ZIP"]] ∧
  ∃ w',
    extract_archives Scenario.extension_set Cases.unpack_bad_member 20
      Cases.skip_plan Scenario.archives Scenario.world = Raise OtherError w' ∧
    fs w' !! ["dest"; "a"; "content"] = Some (File "data") ∧
    fs w' !! ["dest"; "b"; "partial"] = Some (File "da") ∧
    main Scenario.extension_set Scenario.glob Scenario.glob Cases.unpack_bad_member 20
      Cases.skip_plan Scenario.world = Raise OtherError w'.
Proof.
  split; [by vm_compute|].
  exists (res_world Scenario.world
            (extract_archives Scenario.extension_set Cases.unpack_bad_member 20
               Cases.skip_plan Scenario.archives Scenario.world)).
  split_and!;
    match goal with
    | |- ?P => apply (bool_decide_eq_true_1 P); vm_compute; reflexivity
    end.
Qed.


(** C8.  [main] returns 2, with the world untouched, when the input
    directory does not exist; 0, with the world untouched, when discovery
    finds no archive; and otherwise, once the output directory is made and
    the batch has returned its result, 1 when the failed count is not zero
    and 0 when it is. *)
Theorem main_exit_status
    (extension_set : list string) (glob rglob : Path → string → FS → list Path)
    (unpack_archive : Path → Path → FS → option exn * FS)
    (fuel : nat) (plan : ExtractionPlan) (w : World) :
  (Os.path_exists (input_dir plan) (fs w) = false →
   main extension_set glob rglob unpack_archive fuel plan w = Ok 2 w) ∧
  (Os.path_exists (input_dir plan) (fs w) = true →
   collect_archives extension_set glob rglob plan (fs w) = [] →
   main extension_set glob rglob unpack_archive fuel plan w = Ok 0 w) ∧
  (∀ files1 result w',
     Os.path_exists (input_dir plan) (fs w) = true →
     collect_archives extension_set glob rglob plan (fs w) ≠ [] →
     Os.makedirs (output_dir plan) (fs w) = inr files1 →
     extract_archives extension_set unpack_archive fuel plan
       (collect_archives extension_set glob rglob plan (fs w))
       (mkWorld files1 (stdin w)) = Ok result w' →
     (failed result ≠ 0 →
      main extension_set glob rglob unpack_archive fuel plan w = Ok 1 w') ∧
     (failed result = 0 →
      main extension_set glob rglob unpack_archive fuel plan w = Ok 0 w')).
Proof.
  split_and!.
  - intros Hex. unfold main. rewrite bind_unfold. unfold ask_fs at 1. by rewrite Hex.
  - intros Hex Hnone. unfold main.
    rewrite bind_unfold. unfold ask_fs at 1. rewrite Hex. simpl.
    rewrite bind_unfold. unfold ask_fs at 1. by rewrite Hnone.
  - intros files1 result w' Hex Hsome Hmk Hrun.
    assert (Hmain :
      main extension_set glob rglob unpack_archive fuel plan w =
        Ok (if decide (failed result = 0) then 0 else 1) w').
    { unfold main. rewrite bind_unfold. unfold ask_fs at 1. rewrite Hex. simpl.
      rewrite bind_unfold. unfold ask_fs at 1.
      destruct (collect_archives _ _ _ _ _) as [|a l] eqn:Hc; [done|].
      rewrite bind_unfold. unfold update_fs at 1. rewrite Hmk.
      by rewrite bind_unfold, Hrun. }
    rewrite Hmain.
    split; intros Hf; [by rewrite decide_False|by rewrite decide_True].
Qed.


(** * The scenario, through the theorems *)

(** Decides a closed decidable proposition by evaluation. *)
Ltac by_evaluation :=
  match goal with
  | |- ?P => apply (bool_decide_eq_true_1 P); vm_compute; reflexivity
  end.

Lemma scenario_extension_set_ok :
  extension_set_ok Scenario.formats Scenario.extension_set.
Proof. unfold extension_set_ok, Scenario.extension_set. reflexivity. Qed.

Lemma scenario_fs_wf : fs_wf Scenario.files.
Proof. by_evaluation. Qed.

Lemma scenario_link_free (p : Path) : Scenario.files !! p ≠ Some DirLink.
Proof.
  assert (H : map_Forall (λ _ x, x ≠ DirLink) Scenario.files) by by_evaluation.
  intros Hp. by apply (map_Forall_lookup_1 _ _ _ _ H Hp).
Qed.

(** C2 on the scenario: [.GZ] is registered beside [.tar.gz], and the stem
    of [data.tar.gz] is [data]. *)
Lemma archive_stem_longest_suffix_witness :
  archive_stem Scenario.extension_set (["in"] ++ ["data.tar.gz"]) = "data".
Proof.
  refine (proj2 (archive_stem_longest_suffix Scenario.formats Scenario.extension_set
                   _ _) _ _ ["in"]).
  - exact scenario_extension_set_ok.
  - by_evaluation.
  - by_evaluation.
  - by_evaluation.
Defined.

(** C3 on the scenario: the four archives, in order. *)
Lemma collect_archives_exact_witness :
  StronglySorted (λ p q, PurePath.leb p q = true)
    (collect_archives Scenario.extension_set Scenario.glob Scenario.glob
       Scenario.plan Scenario.files) ∧
  collect_archives Scenario.extension_set Scenario.glob Scenario.glob
    Scenario.plan Scenario.files =
    [["in"; "a.zip"]; ["in"; "b.tgz"]; ["in"; "out.tar.gz"]; ["in"; "out_1.ZIP"]].
Proof.
  split; [|by_evaluation].
  refine (proj1 (proj2 (collect_archives_exact Scenario.formats Scenario.extension_set
                          Scenario.glob Scenario.glob Scenario.plan Scenario.files _))).
  exact scenario_extension_set_ok.
Defined.

(** C10 on the scenario: [out_1.ZIP] is stripped by the loop. *)
Lemma collected_archive_never_falls_back_witness :
  ∃ stem,
    archive_stem_loop "out_1.ZIP" "out_1.zip"
      (SUPPORTED_EXTENSIONS Scenario.extension_set) = Some stem ∧
    archive_stem Scenario.extension_set ["in"; "out_1.ZIP"] = stem.
Proof.
  refine (proj2 (collected_archive_never_falls_back Scenario.extension_set
                   Scenario.glob Scenario.glob Scenario.plan Scenario.files
                   ["in"; "out_1.ZIP"] _)).
  by_evaluation.
Defined.

(** C4 on the scenario: [dest/out] and [dest/out_1] exist, so the resolver
    makes [dest/out_2]. *)
Lemma rename_picks_first_unused_witness :
  ensure_destination 20 (["dest"] ++ ["out"]) "rename" Scenario.world =
    Ok (Some (["dest"] ++ ["out_2"]))
       (mkWorld (<[["dest"] ++ ["out_2"] := Dir]> Scenario.files)
                (stdin Scenario.world)).
Proof.
  refine (proj2 (proj2 (rename_picks_first_unused 20 (["dest"] ++ ["out"])
                          Scenario.world _ _ _)) ["dest"] _ _ _).
  - exact scenario_fs_wf.
  - by_evaluation.
  - by_evaluation.
  - reflexivity.
  - by_evaluation.
  - by_evaluation.
Defined.

(** C1 on the scenario: [a.zip] and [b.tgz] are processed without a
    collision; [out.tar.gz] collides, the operator types a reply that is
    refused and then [skip-all]; [out_1.ZIP] is then skipped unprompted. *)
Lemma escalation_replaces_policy_witness :
  let before :=
    extract_loop Scenario.extension_set Scenario.unpack_archive 20 Scenario.plan
      [["in"; "a.zip"]; ["in"; "b.tgz"]] (mkLocals "ask" 0 0 0) Scenario.world in
  let st1 := res_value (mkLocals "" 0 0 0) before in
  let w1 := res_world Scenario.world before in
  extract_loop Scenario.extension_set Scenario.unpack_archive 20 Scenario.plan
    ([["in"; "a.zip"]; ["in"; "b.tgz"]] ++ ["in"; "out.tar.gz"] :: [["in"; "out_1.ZIP"]])
    (mkLocals "ask" 0 0 0) Scenario.world =
  extract_loop Scenario.extension_set Scenario.unpack_archive 20 Scenario.plan
    (["in"; "out.tar.gz"] :: [["in"; "out_1.ZIP"]])
    (mkLocals "skip" (n_extracted st1) (n_skipped st1) (n_failed st1))
    (mkWorld (fs w1) ["unused"]).
Proof.
  intros before st1 w1.
  refine (proj1 (proj2 (escalation_replaces_policy Scenario.extension_set
    Scenario.unpack_archive 20 Scenario.plan [["in"; "a.zip"]; ["in"; "b.tgz"]]
    [["in"; "out_1.ZIP"]] ["in"; "out.tar.gz"] (mkLocals "ask" 0 0 0) st1
    Scenario.world w1 (mkWorld (fs w1) ["unused"]) "skip" _ _ _ _ _))).
  - by_evaluation.
  - by_evaluation.
  - by_evaluation.
  - by_evaluation.
  - by_evaluation.
Defined.

(** C6 on the scenario, as a dry run. *)
Lemma dry_run_never_unpacks_witness :
  extract_archives Scenario.extension_set Scenario.unpack_archive 20
    Scenario.dry_plan Scenario.archives Scenario.world =
  (ds ← resolve_destinations Scenario.extension_set 20 Scenario.dry_plan
          Scenario.archives "ask";
   mret (mkResult (count_use ds) (count_skip ds) 0)) Scenario.world.
Proof.
  refine (proj1 (dry_run_never_unpacks Scenario.extension_set Scenario.unpack_archive
                   20 Scenario.dry_plan Scenario.archives Scenario.world _)).
  reflexivity.
Defined.


(** C8 on the scenario: one archive fails, so the exit status is 1; with an
    input directory that does not exist it is 2. *)
Lemma main_exit_status_witness :
  let run :=
    extract_archives Scenario.extension_set Scenario.unpack_archive 20 Scenario.plan
      Scenario.archives Scenario.world in
  main Scenario.extension_set Scenario.glob Scenario.glob Scenario.unpack_archive 20
    Scenario.plan Scenario.world = Ok 1 (res_world Scenario.world run) ∧
  main Scenario.extension_set Scenario.glob Scenario.glob Scenario.unpack_archive 20
    Scenario.missing_plan Scenario.world = Ok 2 Scenario.world.
Proof.
  intros run. split.
  - refine (proj1 (proj2 (proj2 (main_exit_status Scenario.extension_set Scenario.glob
      Scenario.glob Scenario.unpack_archive 20 Scenario.plan Scenario.world))
      Scenario.files (res_value (mkResult 0 0 0) run) (res_world Scenario.world run)
      _ _ _ _) _).
    + by_evaluation.
    + by_evaluation.
    + by_evaluation.
    + by_evaluation.
    + by_evaluation.
  - refine (proj1 (main_exit_status Scenario.extension_set Scenario.glob
      Scenario.glob Scenario.unpack_archive 20 Scenario.missing_plan Scenario.world) _).
    by_evaluation.
Defined.


(** * Further properties of the code *)

(** ** Prompts *)

Lemma prompt_choice_loop_ok (choices : list string) (default : string)
    (lines : list string) (files : FS) (value : string) (w' : World) :
  prompt_choice_loop choices default lines files = Ok value w' →
  value ∈ choices ∧ fs w' = files ∧
  ∃ refused line,
    lines = refused ++ line :: stdin w' ∧
    prompt_reply default line = value ∧
    Forall (λ l, prompt_reply default l ∉ choices) refused.
Proof.
  induction lines as [|l rest IH]; simpl; [done|].
  case_decide as Hin.
  - intros [= <- <-]. split_and!; [done..|].
    exists [], l. by split_and!.
  - intros (Hv & Hfs & refused & line & -> & Hline & Hrefused)%IH.
    split_and!; [done..|].
    exists (l :: refused), line. split_and!; [done|done|by constructor].
Qed.

(** X1.  When [prompt_choice] returns, its value is one of the choices; it
    is what [prompt] makes of the first pending line whose reply is a
    choice; the lines before it, all refused, and that line are consumed
    and no other; and the file system is untouched. *)
Theorem prompt_choice_returns_a_choice (choices : list string) (default : string)
    (w w' : World) (value : string) :
  prompt_choice choices default w = Ok value w' →
  value ∈ choices ∧ fs w' = fs w ∧
  ∃ refused line,
    stdin w = refused ++ line :: stdin w' ∧
    prompt_reply default line = value ∧
    Forall (λ l, prompt_reply default l ∉ choices) refused.
Proof. apply prompt_choice_loop_ok. Qed.

Lemma prompt_choice_loop_eof (choices : list string) (default : string)
    (lines : list string) (files : FS) :
  Forall (λ l, prompt_reply default l ∉ choices) lines →
  prompt_choice_loop choices default lines files = Raise EOFError (mkWorld files []).
Proof.
  induction 1 as [|l rest Hl _ IH]; [done|]. simpl. by rewrite decide_False.
Qed.

(** X2.  When no pending line gives a reply that is a choice (in
    particular when no line is pending), [prompt_choice] raises [EOFError]
    with the input used up and the file system untouched; and it raises
    nothing else. *)
Theorem prompt_choice_raises_eof (choices : list string) (default : string)
    (w : World) :
  (Forall (λ l, prompt_reply default l ∉ choices) (stdin w) →
   prompt_choice choices default w = Raise EOFError (mkWorld (fs w) [])) ∧
  (∀ e w', prompt_choice choices default w = Raise e w' →
           e = EOFError ∧ w' = mkWorld (fs w) [] ∧
           Forall (λ l, prompt_reply default l ∉ choices) (stdin w)).
Proof.
  split; [apply prompt_choice_loop_eof|].
  unfold prompt_choice. generalize (fs w) as files.
  induction (stdin w) as [|l rest IH]; intros files e w'; simpl.
  - by intros [= <- <-].
  - case_decide as Hin; [done|].
    intros (-> & -> & Hrest)%IH. split_and!; [done|done|by constructor].
Qed.

Lemma isspace_lower_char (c : ascii) : Str.isspace (Str.lower_char c) = Str.isspace c.
Proof. by destruct c as [[] [] [] [] [] [] [] []]. Qed.

Lemma lower_char_idemp (c : ascii) :
  Str.lower_char (Str.lower_char c) = Str.lower_char c.
Proof. by destruct c as [[] [] [] [] [] [] [] []]. Qed.

Lemma lower_idemp (s : string) : Str.lower (Str.lower s) = Str.lower s.
Proof.
  induction s as [|c s IH]; simpl; [done|]. by rewrite lower_char_idemp, IH.
Qed.

Lemma lstrip_lower (s : string) : Str.lstrip (Str.lower s) = Str.lower (Str.lstrip s).
Proof.
  induction s as [|c s IH]; simpl; [done|].
  rewrite isspace_lower_char. by destruct (Str.isspace c).
Qed.

Lemma rev_app_lower (s acc : string) :
  String.rev_app (Str.lower s) (Str.lower acc) = Str.lower (String.rev_app s acc).
Proof.
  revert acc. induction s as [|c s IH]; intros acc; simpl; [done|].
  by rewrite <- IH.
Qed.

Lemma rev_lower (s : string) : String.rev (Str.lower s) = Str.lower (String.rev s).
Proof. apply (rev_app_lower s ""). Qed.

Lemma strip_lower (s : string) : Str.strip (Str.lower s) = Str.lower (Str.strip s).
Proof. unfold Str.strip. by rewrite lstrip_lower, rev_lower, lstrip_lower, rev_lower. Qed.

(** X3.  [prompt_yes_no] reads a reply without regard to the case of its
    letters: a pending line and its lowercase give the same outcome. *)
Theorem prompt_yes_no_ignores_case (default : bool) (line : string)
    (rest : list string) (files : FS) :
  prompt_yes_no default (mkWorld files (Str.lower line :: rest)) =
  prompt_yes_no default (mkWorld files (line :: rest)).
Proof.
  unfold prompt_yes_no. simpl. by rewrite strip_lower, lower_idemp.
Qed.

(** ** The policy across a batch *)

Lemma collision_choice_cases (choice : string) :
  choice ∈ ["skip"; "overwrite"; "rename"; "skip-all"; "overwrite-all"; "rename-all"] →
  (Str.endswith choice "-all" = false ∧ choice ∈ ["skip"; "overwrite"; "rename"]) ∨
  (Str.endswith choice "-all" = true ∧
   Str.replace "-all" "" choice ∈ ["skip"; "overwrite"; "rename"]).
Proof.
  intros Hin. repeat (apply elem_of_cons in Hin as [->|Hin]);
    [left|left|left|right|right|right|by apply elem_of_nil in Hin];
    (split; [reflexivity|by_evaluation]).
Qed.

(** X4.  A reply to the collision prompt without [-all] is applied to this
    destination only: the policy handed back is still [ask]. *)
Theorem plain_choice_keeps_asking (fuel : nat) (dest : Path) (choice : string)
    (w w' : World) :
  choice ∈ ["skip"; "overwrite"; "rename"] →
  Os.path_exists dest (fs w) = true →
  prompt_choice
    ["skip"; "overwrite"; "rename"; "skip-all"; "overwrite-all"; "rename-all"]
    "skip" w = Ok choice w' →
  handle_existing_dest fuel dest "ask" w =
    (r ← ensure_destination fuel dest choice; mret (r, "ask")) w'.
Proof.
  intros Hchoice Hex Hprompt. unfold handle_existing_dest.
  rewrite bind_unfold. unfold ask_fs at 1. rewrite Hex. simpl.
  rewrite bind_unfold, Hprompt.
  repeat (apply elem_of_cons in Hchoice as [->|Hchoice]); [done..|].
  by apply elem_of_nil in Hchoice.
Qed.

Lemma handle_existing_dest_valid (fuel : nat) (dest : Path) (on_existing : string)
    (w w' : World) (r : option Path) (on_existing' : string) :
  valid_policy on_existing →
  handle_existing_dest fuel dest on_existing w = Ok (r, on_existing') w' →
  valid_policy on_existing'.
Proof.
  intros Hvalid Hrun.
  destruct (decide (on_existing = "ask")) as [->|Hne];
    [|by rewrite (handle_existing_dest_policy _ _ _ _ _ _ _ Hne Hrun)].
  destruct (Os.path_exists dest (fs w)) eqn:Hex.
  - unfold handle_existing_dest in Hrun. rewrite bind_unfold in Hrun.
    unfold ask_fs at 1 in Hrun. rewrite Hex in Hrun. simpl in Hrun.
    apply bind_ok_inv in Hrun as (choice & w1 & Hprompt & Hrun).
    apply prompt_choice_loop_ok in Hprompt as (Hin & _).
    apply collision_choice_cases in Hin as [[Hend _]|[Hend Hbase]];
      rewrite Hend in Hrun;
      apply bind_ok_inv in Hrun as (r' & w2 & _ & Hret);
      unfold mret, M_ret in Hret; injection Hret as _ <- _; [done|].
    unfold valid_policy. apply elem_of_cons. by right.
  - rewrite handle_existing_dest_direct in Hrun by (by right).
    apply bind_ok_inv in Hrun as (r' & w2 & _ & Hret).
    unfold mret, M_ret in Hret. by injection Hret as _ <- _.
Qed.

(** X5.  A batch that starts with one of the four policies ends with one of
    the four policies in force, whatever the operator types. *)
Theorem policy_stays_valid
    (extension_set : list string)
    (unpack_archive : Path → Path → FS → option exn * FS)
    (fuel : nat) (plan : ExtractionPlan) (archives : list Path)
    (st st' : Locals) (w w' : World) :
  valid_policy (policy st) →
  extract_loop extension_set unpack_archive fuel plan archives st w = Ok st' w' →
  valid_policy (policy st').
Proof.
  revert st w. induction archives as [|archive rest IH]; intros st w Hvalid.
  - by intros [= <- _].
  - pose proof (extract_loop_step extension_set unpack_archive fuel plan archive rest
                  st w) as Hstep.
    destruct (handle_existing_dest _ _ _ w) as [[d pol] w1|e w1|] eqn:Hh;
      [|congruence..].
    apply (handle_existing_dest_valid _ _ _ _ _ _ _ Hvalid) in Hh.
    destruct Hstep as [(e & w2 & ->)|(st1 & w2 & -> & Hpol & _)]; [done|].
    apply IH. by rewrite Hpol.
Qed.

Lemma extract_loop_keeps_stdin
    (extension_set : list string)
    (unpack_archive : Path → Path → FS → option exn * FS)
    (fuel : nat) (plan : ExtractionPlan) (archives : list Path) (st : Locals) :
  policy st ≠ "ask" →
  preserves (λ w w', stdin w' = stdin w)
    (extract_loop extension_set unpack_archive fuel plan archives st).
Proof.
  unfold preserves.
  revert st. induction archives as [|archive rest IH]; intros st Hne w w'.
  - by intros [= <-].
  - simpl. rewrite bind_unfold.
    destruct (handle_existing_dest _ _ _ w) as [[d pol] w1|e w1|] eqn:Hh; [| |done].
    + pose proof (handle_existing_dest_policy _ _ _ _ _ _ _ Hne Hh) as ->.
      assert (Hin : stdin w1 = stdin w).
      { eapply (preserves_handle_existing_dest_stdin fuel _ (policy st) Hne).
        by rewrite Hh. }
      assert (Hrest : ∀ st1 w2,
        policy st1 = policy st → stdin w2 = stdin w1 →
        final_world (extract_loop extension_set unpack_archive fuel plan rest st1 w2)
          = Some w' →
        stdin w' = stdin w).
      { intros st1 w2 Hpol Hw2 Hfin. apply IH in Hfin; [congruence|].
        by rewrite Hpol. }
      destruct d as [d|]; [|by apply Hrest].
      destruct (dry_run plan); [by apply Hrest|].
      rewrite bind_unfold. unfold try_except. rewrite bind_unfold.
      unfold shutil_unpack_archive.
      destruct (unpack_archive archive d (fs w1)) as [[exc|] files'].
      * destruct (extraction_error exc); [by apply Hrest|].
        intros [= <-]. done.
      * by apply Hrest.
    + intros [= <-].
      eapply (preserves_handle_existing_dest_stdin fuel _ (policy st) Hne).
      by rewrite Hh.
Qed.

Lemma main_keeps_stdin
    (extension_set : list string) (glob rglob : Path → string → FS → list Path)
    (unpack_archive : Path → Path → FS → option exn * FS)
    (fuel : nat) (plan : ExtractionPlan) :
  on_existing plan ≠ "ask" →
  preserves (λ w w', stdin w' = stdin w)
    (main extension_set glob rglob unpack_archive fuel plan).
Proof.
  intros Hne. unfold main.
  apply preserves_bind; [apply _|apply preserves_ask_fs, _|]. intros present.
  destruct (negb present); [apply preserves_ret, _|].
  apply preserves_bind; [apply _|apply preserves_ask_fs, _|]. intros [|a l].
  { apply preserves_ret, _. }
  apply preserves_bind; [apply _| |intros _].
  { apply preserves_update_fs; [apply _|done|apply makedirs_no_new_files]. }
  apply preserves_bind; [apply _| |intros result; apply preserves_ret, _].
  unfold extract_archives.
  apply preserves_bind; [apply _| |intros st; apply preserves_ret, _].
  by apply extract_loop_keeps_stdin.
Qed.

(** X6.  A run that is given an input or an output directory on the
    command line, without [--interactive] and with a policy other than
    [ask], never reads the input of the operator: whatever it does and
    however it ends, the pending lines are the ones it started with. *)
Theorem unattended_run_reads_no_input
    (cwd : Path) (resolve_str : string → Path)
    (RawPath : Type) (raw_cwd : RawPath) (raw_join : RawPath → string → RawPath)
    (resolve_raw : RawPath → Path)
    (extension_set : list string) (glob rglob : Path → string → FS → list Path)
    (unpack_archive : Path → Path → FS → option exn * FS)
    (fuel : nat) (args : Args RawPath) (w w' : World) :
  arg_interactive RawPath args = false →
  is_Some (arg_input RawPath args) ∨ is_Some (arg_output RawPath args) →
  arg_on_existing RawPath args ≠ "ask" →
  final_world
    (main_from_args cwd resolve_str RawPath raw_cwd raw_join resolve_raw
       extension_set glob rglob unpack_archive fuel args w) = Some w' →
  stdin w' = stdin w.
Proof.
  intros Hint Hgiven Hne. unfold main_from_args.
  rewrite Hint, (bool_decide_eq_true_2 _ Hgiven). simpl.
  by apply main_keeps_stdin.
Qed.

(** X7.  When a destination collides under [ask] and no pending line is an
    acceptable reply, the [EOFError] of the prompt ends the batch there:
    the remaining archives are not processed and the file system is as the
    earlier archives left it. *)
Theorem prompt_eof_aborts_batch
    (extension_set : list string)
    (unpack_archive : Path → Path → FS → option exn * FS)
    (fuel : nat) (plan : ExtractionPlan) (archive : Path) (rest : list Path)
    (st : Locals) (w : World) :
  policy st = "ask" →
  Os.path_exists
    (PurePath.join (output_dir plan) (archive_stem extension_set archive))
    (fs w) = true →
  Forall (λ l, prompt_reply "skip" l ∉
               ["skip"; "overwrite"; "rename"; "skip-all"; "overwrite-all"; "rename-all"])
         (stdin w) →
  extract_loop extension_set unpack_archive fuel plan (archive :: rest) st w =
    Raise EOFError (mkWorld (fs w) []).
Proof.
  intros Hask Hex Hrefused. simpl. rewrite bind_unfold, Hask.
  unfold handle_existing_dest. rewrite bind_unfold. unfold ask_fs at 1.
  rewrite Hex. simpl. rewrite bind_unfold.
  unfold prompt_choice. by rewrite prompt_choice_loop_eof.
Qed.

(** ** Errors that end the batch *)

(** X8.  An error while the destination is prepared is not caught, although
    it is an [OSError]: under [overwrite], a destination that exists as a
    regular file makes [iterdir] raise [NotADirectoryError], which ends the
    batch with the world untouched and the remaining archives unprocessed,
    in a dry run as well. *)
Theorem destination_error_aborts_batch
    (extension_set : list string)
    (unpack_archive : Path → Path → FS → option exn * FS)
    (fuel : nat) (plan : ExtractionPlan) (archive : Path) (rest : list Path)
    (st : Locals) (w : World) :
  policy st = "overwrite" →
  Os.is_file
    (PurePath.join (output_dir plan) (archive_stem extension_set archive))
    (fs w) = true →
  extraction_error NotADirectoryError = true ∧
  extract_loop extension_set unpack_archive fuel plan (archive :: rest) st w =
    Raise NotADirectoryError w.
Proof.
  intros Hpol Hfile. split; [done|]. simpl. rewrite bind_unfold, Hpol.
  rewrite handle_existing_dest_direct by (by left).
  rewrite bind_unfold. unfold ensure_destination. rewrite bind_unfold.
  unfold ask_fs at 1. unfold Os.path_exists, Os.is_file in *.
  destruct (fs w !! _) as [[c| |]|] eqn:Hdest; try done.
  rewrite bool_decide_eq_true_2 by done. simpl.
  rewrite bind_unfold. unfold query_fs, Os.iterdir. by rewrite Hdest.
Qed.

(** X9.  An exception of the unpacker outside [ReadError], [ValueError] and
    [OSError] is not caught: it ends the batch at that archive, with no
    counter changed and the remaining archives unprocessed. *)
Theorem unexpected_unpack_error_aborts_batch
    (extension_set : list string)
    (unpack_archive : Path → Path → FS → option exn * FS)
    (fuel : nat) (plan : ExtractionPlan) (archive : Path) (rest : list Path)
    (st : Locals) (w w1 : World) (dest : Path) (on_existing' : string)
    (exc : exn) (files' : FS) :
  dry_run plan = false →
  handle_existing_dest fuel
    (PurePath.join (output_dir plan) (archive_stem extension_set archive))
    (policy st) w = Ok (Some dest, on_existing') w1 →
  unpack_archive archive dest (fs w1) = (Some exc, files') →
  exc ∈ [EOFError; OtherError] →
  extract_loop extension_set unpack_archive fuel plan (archive :: rest) st w =
    Raise exc (mkWorld files' (stdin w1)).
Proof.
  intros Hdry Hdest Hunpack Hexc. simpl.
  rewrite bind_unfold, Hdest, Hdry, bind_unfold.
  unfold try_except. rewrite bind_unfold. unfold shutil_unpack_archive.
  rewrite Hunpack.
  assert (extraction_error exc = false) as ->; [|done].
  repeat (apply elem_of_cons in Hexc as [->|Hexc]); [done..|].
  by apply elem_of_nil in Hexc.
Qed.

(** ** Stems *)

Lemma string_app_nil_r (s : string) : s +:+ "" = s.
Proof. induction s as [|c s IH]; [done|]. by rewrite string_app_cons, IH. Qed.

Lemma take_prefix (n : nat) (s : string) : ∃ tail, s = Str.take n s +:+ tail.
Proof.
  unfold Str.take. revert n. induction s as [|c s IH]; intros [|n]; simpl.
  - by exists "".
  - by exists "".
  - by exists (String c s).
  - destruct (IH n) as [tail Htail]. exists tail.
    by rewrite string_app_cons, <- Htail.
Qed.

Lemma drop_last_prefix (k : nat) (s : string) : ∃ tail, s = Str.drop_last k s +:+ tail.
Proof. destruct k; [by exists s|apply take_prefix]. Qed.

Lemma archive_stem_loop_prefix (name lower_name stem : string) (exts : list string) :
  archive_stem_loop name lower_name exts = Some stem →
  ∃ tail, name = stem +:+ tail.
Proof.
  induction exts as [|ext exts IH]; simpl; [done|].
  destruct (Str.endswith lower_name ext); [|done].
  intros [= <-]. apply drop_last_prefix.
Qed.

(** X10.  The stem of an archive is always a prefix of its file name,
    whether an extension was stripped or the fallback to [path.stem] was
    taken. *)
Theorem archive_stem_is_prefix (extension_set : list string) (path : Path) :
  ∃ tail, PurePath.name path = archive_stem extension_set path +:+ tail.
Proof.
  unfold archive_stem.
  destruct (archive_stem_loop _ _ _) as [stem|] eqn:Hloop.
  - by eapply archive_stem_loop_prefix.
  - unfold PurePath.stem.
    destruct (Str.rfind_dot _) as [i|]; [|exists ""; by rewrite string_app_nil_r].
    destruct (_ && _); [apply take_prefix|exists ""; by rewrite string_app_nil_r].
Qed.

Lemma endswith_length (s suffix : string) :
  Str.endswith s suffix = true → String.length suffix ≤ String.length s.
Proof. intros [pre ->]%endswith_iff. rewrite string_length_app. lia. Qed.

Lemma endswith_refl (s : string) : Str.endswith s s = true.
Proof. apply endswith_iff. by exists "". Qed.

Lemma take_zero (s : string) : Str.take 0 s = "".
Proof. by destruct s. Qed.

(** X11.  A file whose whole name is a known extension, in any case of
    letters ([.zip], [.TAR.GZ]), has the empty stem, and its destination is
    the output directory itself. *)
Theorem extension_only_name_targets_output_dir
    (formats : list (string * list string * string)) (extension_set : list string)
    (dir out : Path) (name : string) :
  extension_set_ok formats extension_set →
  Str.lower name ∈ lowered_extensions formats →
  name ≠ "" →
  archive_stem extension_set (dir ++ [name]) = "" ∧
  PurePath.join out (archive_stem extension_set (dir ++ [name])) = out.
Proof.
  intros Hok Hknown Hname.
  assert (Hstem : archive_stem extension_set (dir ++ [name]) = "");
    [|by rewrite Hstem].
  unfold archive_stem. rewrite name_snoc.
  destruct (archive_stem_loop_longest name (Str.lower name)
              (SUPPORTED_EXTENSIONS extension_set))
    as (e & _ & Hends & Hmax & ->).
  { apply supported_extensions_longest_first. }
  { exists (Str.lower name).
    split; [by apply (supported_extension_iff formats)|apply endswith_refl]. }
  assert (Hlen : String.length e = String.length name).
  { apply endswith_length in Hends as Hle. rewrite lower_length in Hle.
    assert (String.length (Str.lower name) ≤ String.length e) as Hge.
    { apply Hmax; [by apply (supported_extension_iff formats)|apply endswith_refl]. }
    rewrite lower_length in Hge. lia. }
  unfold Str.drop_last. rewrite Hlen.
  destruct (String.length name) as [|k] eqn:Hk; [done|].
  replace (S k - S k) with 0 by lia. apply take_zero.
Qed.

(** X12.  [SUPPORTED_EXTENSIONS] holds exactly the lowercased extensions of
    the registered formats, each once and unchanged by [lower], the longer
    ones first. *)
Theorem supported_extensions_spec
    (formats : list (string * list string * string)) (extension_set : list string) :
  extension_set_ok formats extension_set →
  (∀ e, e ∈ SUPPORTED_EXTENSIONS extension_set ↔
        ∃ fmt raw, fmt ∈ formats ∧ raw ∈ fmt.1.2 ∧ e = Str.lower raw) ∧
  NoDup (SUPPORTED_EXTENSIONS extension_set) ∧
  (∀ e, e ∈ SUPPORTED_EXTENSIONS extension_set → Str.lower e = e) ∧
  StronglySorted (λ a b, String.length b ≤ String.length a)
    (SUPPORTED_EXTENSIONS extension_set).
Proof.
  intros Hok.
  assert (Hmem : ∀ e, e ∈ SUPPORTED_EXTENSIONS extension_set ↔
                      ∃ fmt raw, fmt ∈ formats ∧ raw ∈ fmt.1.2 ∧ e = Str.lower raw).
  { intros e. rewrite (supported_extension_iff formats) by done.
    unfold lowered_extensions. rewrite list_elem_of_In, in_flat_map. split.
    - intros (fmt & Hfmt & (raw & <- & Hraw)%in_map_iff).
      exists fmt, raw. by rewrite !list_elem_of_In.
    - intros (fmt & raw & Hfmt & Hraw & ->). exists fmt.
      rewrite <- list_elem_of_In. split; [done|].
      apply in_map. by apply list_elem_of_In. }
  split_and!.
  - exact Hmem.
  - unfold SUPPORTED_EXTENSIONS. rewrite sorted_perm, Hok. apply NoDup_remove_dups.
  - intros e (fmt & raw & _ & _ & ->)%Hmem. apply lower_idemp.
  - apply supported_extensions_longest_first.
Qed.

(** ** What the resolver does to the file system *)

Lemma preserves_update_fs_step (R : World → World → Prop) `{!PreOrder R}
    (f : FS → exn + FS) :
  (∀ files files' lines,
     f files = inr files' → R (mkWorld files lines) (mkWorld files' lines)) →
  preserves R (update_fs f).
Proof.
  intros Hf [files lines] w'. unfold update_fs. simpl.
  destruct (f files) as [e|files'] eqn:Hff; intros [= <-]; [reflexivity|].
  by apply Hf.
Qed.

Lemma mkdir_subseteq (p : Path) (files files' : FS) :
  Os.mkdir p files = inr files' → files ⊆ files'.
Proof. intros [Hp ->]%mkdir_inr. by apply insert_subseteq. Qed.

Lemma makedirs_subseteq (p : Path) (files files' : FS) :
  Os.makedirs p files = inr files' → files ⊆ files'.
Proof.
  unfold Os.makedirs. generalize (reverse p) as rp. clear p.
  intros rp. revert files files'.
  induction rp as [|x rp IH]; intros files files'; simpl.
  - destruct (Os.mkdir _ files) as [[]|f1] eqn:Hm;
      try (destruct (Os.is_dir _ files); by intros [= <-]); try done.
    intros [= <-]. by eapply mkdir_subseteq.
  - destruct (Os.mkdir _ files) as [e|f1] eqn:Hm.
    + destruct e;
        try (destruct (Os.is_dir _ files); by intros [= <-]).
      destruct (Os.makedirs_rev rp files) as [|f1] eqn:Hrec; [done|].
      apply IH in Hrec.
      destruct (Os.mkdir _ f1) as [e|f2] eqn:Hm2.
      * destruct (Os.is_dir _ f1); by intros [= <-].
      * intros [= <-]. trans f1; [done|]. by eapply mkdir_subseteq.
    + intros [= <-]. by eapply mkdir_subseteq.
Qed.

Global Instance fs_grows_preorder :
  PreOrder (λ w w' : World, fs w ⊆ fs w' ∧ stdin w' = stdin w).
Proof.
  split; [done|]. intros w1 w2 w3 [H12 Hs12] [H23 Hs23].
  split; [by trans (fs w2)|congruence].
Qed.

(** X13.  Only the [overwrite] policy removes anything: under every other
    policy, whatever the resolver does, each entry of the file system is
    still there, unchanged, and the input is not read. *)
Theorem only_overwrite_removes (fuel : nat) (dest : Path) (on_existing : string)
    (w w' : World) :
  on_existing ≠ "overwrite" →
  final_world (ensure_destination fuel dest on_existing w) = Some w' →
  fs w ⊆ fs w' ∧ stdin w' = stdin w.
Proof.
  intros Hne. revert w w'. unfold ensure_destination.
  assert (Hmk : ∀ p, preserves (λ w w', fs w ⊆ fs w' ∧ stdin w' = stdin w)
                       (update_fs (Os.makedirs p))).
  { intros p. apply preserves_update_fs_step; [apply _|].
    intros files files' lines Hm. split; [by eapply makedirs_subseteq|done]. }
  apply preserves_bind; [apply _|apply preserves_ask_fs, _|]. intros present.
  destruct (negb present).
  { apply preserves_bind; [apply _|apply Hmk|intros; apply preserves_ret, _]. }
  case_decide; [apply preserves_ret, _|].
  case_decide; [done|].
  case_decide; [|apply preserves_ret, _].
  apply preserves_bind; [apply _| |intros; apply preserves_ret, _].
  generalize 1 as counter. induction fuel as [|fuel IH]; intros counter; simpl; [done|].
  apply preserves_bind; [apply _|apply preserves_ask_fs, _|]. intros [|]; [apply IH|].
  apply preserves_bind; [apply _|apply Hmk|intros; apply preserves_ret, _].
Qed.

Lemma parent_prefix (q : Path) : PurePath.parent q `prefix_of` q.
Proof.
  unfold PurePath.parent. destruct q as [|x q] using rev_ind; [done|].
  rewrite removelast_last. by apply prefix_app_r.
Qed.

Lemma is_dir_insert_ne (p q : Path) (x : node) (files : FS) :
  p ≠ q → Os.is_dir q (<[p := x]> files) = Os.is_dir q files.
Proof. intros Hne. unfold Os.is_dir. by rewrite lookup_insert_ne. Qed.

Lemma is_dir_rmtree (c q : Path) (files : FS) :
  ¬ c `prefix_of` q →
  Os.is_dir q (filter (λ kv : Path * node, ¬ c `prefix_of` kv.1) files) =
    Os.is_dir q files.
Proof. intros Hn. unfold Os.is_dir. rewrite rmtree_lookup. by case_decide. Qed.

Lemma mkdir_wf (p : Path) (files files' : FS) :
  fs_wf files → Os.mkdir p files = inr files' → fs_wf files'.
Proof.
  intros [Hroot Hwf] Hm.
  assert (Hparent : Os.is_dir (PurePath.parent p) files = true).
  { unfold Os.mkdir in Hm. unfold Os.is_dir. destruct (files !! p); [done|].
    by destruct (files !! PurePath.parent p) as [[]|]. }
  apply mkdir_inr in Hm as [Hp ->]. split.
  - rewrite lookup_insert_ne; [done|]. congruence.
  - apply map_Forall_insert; [done|]. split.
    + rewrite is_dir_insert_ne; [done|].
      intros Heq. apply is_dir_is_Some in Hparent. rewrite <- Heq, Hp in Hparent.
      by destruct Hparent.
    + apply map_Forall_lookup. intros q x Hq.
      pose proof (map_Forall_lookup_1 _ _ _ _ Hwf Hq) as Hpq. simpl in Hpq.
      rewrite is_dir_insert_ne; [done|].
      intros Heq. apply is_dir_is_Some in Hpq. rewrite <- Heq, Hp in Hpq.
      by destruct Hpq.
Qed.

Lemma makedirs_wf (p : Path) (files files' : FS) :
  fs_wf files → Os.makedirs p files = inr files' → fs_wf files'.
Proof.
  unfold Os.makedirs. generalize (reverse p) as rp. clear p.
  intros rp. revert files files'.
  induction rp as [|x rp IH]; intros files files' Hwf; simpl.
  - destruct (Os.mkdir _ files) as [[]|f1] eqn:Hm;
      try (destruct (Os.is_dir _ files); by intros [= <-]); try done.
    intros [= <-]. by eapply mkdir_wf.
  - destruct (Os.mkdir _ files) as [e|f1] eqn:Hm.
    + destruct e;
        try (destruct (Os.is_dir _ files); by intros [= <-]).
      destruct (Os.makedirs_rev rp files) as [|f1] eqn:Hrec; [done|].
      apply IH in Hrec; [|done].
      destruct (Os.mkdir _ f1) as [e|f2] eqn:Hm2.
      * destruct (Os.is_dir _ f1); by intros [= <-].
      * intros [= <-]. by eapply mkdir_wf.
    + intros [= <-]. by eapply mkdir_wf.
Qed.

Lemma rmtree_filter_wf (c : Path) (files : FS) :
  c ≠ [] → fs_wf files →
  fs_wf (filter (λ kv : Path * node, ¬ c `prefix_of` kv.1) files).
Proof.
  intros Hc [Hroot Hwf]. split.
  - rewrite rmtree_lookup. case_decide as Hpre; [|done].
    by apply prefix_nil_inv in Hpre.
  - apply map_Forall_lookup. intros q x [Hq Hn]%map_lookup_filter_Some.
    simpl in Hn. rewrite is_dir_rmtree.
    + exact (map_Forall_lookup_1 _ _ _ _ Hwf Hq).
    + intros Hpre. destruct Hn. trans (PurePath.parent q); [done|apply parent_prefix].
Qed.

Lemma rmtree_wf (c : Path) (files files' : FS) :
  c ≠ [] → fs_wf files → Os.rmtree c files = inr files' → fs_wf files'.
Proof.
  intros Hc Hwf. unfold Os.rmtree.
  destruct (files !! c) as [[]|]; try done. intros [= <-].
  by apply rmtree_filter_wf.
Qed.

Lemma unlink_wf (c : Path) (files files' : FS) :
  fs_wf files → Os.unlink c files = inr files' → fs_wf files'.
Proof.
  intros Hwf. pose proof Hwf as [Hroot Hall]. unfold Os.unlink.
  destruct (files !! c) as [[content| |]|] eqn:Hc; try done; intros [= <-].
  - split.
    + rewrite lookup_delete_ne; [done|]. congruence.
    + apply map_Forall_lookup. intros q x [Hne Hq]%lookup_delete_Some.
      pose proof (map_Forall_lookup_1 _ _ _ _ Hall Hq) as Hpq. simpl in Hpq.
      unfold Os.is_dir in *. rewrite lookup_delete_ne; [done|].
      intros Heq. by rewrite <- Heq, Hc in Hpq.
  - apply rmtree_filter_wf; [|done]. congruence.
Qed.

Global Instance fs_wf_preorder :
  PreOrder (λ w w' : World, fs_wf (fs w) → fs_wf (fs w')).
Proof. split; [by intros w|]. intros w1 w2 w3 H12 H23 H1. auto. Qed.

Lemma preserves_makedirs_wf (p : Path) :
  preserves (λ w w', fs_wf (fs w) → fs_wf (fs w')) (update_fs (Os.makedirs p)).
Proof.
  apply preserves_update_fs_step; [apply _|].
  intros files files' lines Hm Hwf. by eapply makedirs_wf.
Qed.

Lemma preserves_overwrite_loop_wf (children : list Path) :
  Forall (λ c, c ≠ []) children →
  preserves (λ w w', fs_wf (fs w) → fs_wf (fs w')) (overwrite_loop children).
Proof.
  induction 1 as [|child rest Hchild _ IH]; simpl.
  - apply preserves_ret, _.
  - apply preserves_bind; [apply _|apply preserves_ask_fs, _|]. intros d.
    apply preserves_bind; [apply _| |done].
    destruct d; (apply preserves_update_fs_step; [apply _|]);
      intros files files' lines Hm Hwf.
    + by eapply rmtree_wf.
    + by eapply unlink_wf.
Qed.

Lemma preserves_ensure_destination_wf (fuel : nat) (dest : Path)
    (on_existing : string) :
  preserves (λ w w', fs_wf (fs w) → fs_wf (fs w'))
    (ensure_destination fuel dest on_existing).
Proof.
  unfold ensure_destination.
  apply preserves_bind; [apply _|apply preserves_ask_fs, _|]. intros present.
  destruct (negb present).
  { apply preserves_bind;
      [apply _|apply preserves_makedirs_wf|intros; apply preserves_ret, _]. }
  case_decide; [apply preserves_ret, _|].
  case_decide.
  { intros w w'. rewrite bind_unfold. unfold query_fs at 1.
    destruct (Os.iterdir dest (fs w)) as [e|children] eqn:Hiter;
      [by intros [= <-]|].
    simpl. intros Hfin.
    assert (Hp : preserves (λ w w', fs_wf (fs w) → fs_wf (fs w'))
                   (overwrite_loop children ≫= λ _, mret (Some dest)));
      [|exact (Hp w w' Hfin)].
    apply preserves_bind; [apply _| |intros; apply preserves_ret, _].
    apply preserves_overwrite_loop_wf.
    unfold Os.iterdir in Hiter. destruct (fs w !! dest) as [[]|]; try done;
      injection Hiter as <-; apply Forall_forall;
      by intros c [[Hc _] _]%list_elem_of_filter. }
  case_decide; [|apply preserves_ret, _].
  apply preserves_bind; [apply _| |intros; apply preserves_ret, _].
  generalize 1 as counter. induction fuel as [|fuel IH]; intros counter; simpl; [done|].
  apply preserves_bind; [apply _|apply preserves_ask_fs, _|]. intros [|]; [apply IH|].
  apply preserves_bind;
    [apply _|apply preserves_makedirs_wf|intros; apply preserves_ret, _].
Qed.

(** X14.  Whatever the policy, the reply of the operator and the outcome,
    resolving a destination leaves a well-formed file system well formed:
    the root and the parent of every entry are still directories. *)
Theorem resolver_keeps_well_formed (fuel : nat) (dest : Path) (on_existing : string)
    (w w' : World) :
  fs_wf (fs w) →
  final_world (handle_existing_dest fuel dest on_existing w) = Some w' →
  fs_wf (fs w').
Proof.
  intros Hwf Hfin. revert w w' Hfin Hwf.
  change (preserves (λ w w', fs_wf (fs w) → fs_wf (fs w'))
            (handle_existing_dest fuel dest on_existing)).
  unfold handle_existing_dest.
  apply preserves_bind; [apply _|apply preserves_ask_fs, _|]. intros present.
  destruct (negb present || negb (bool_decide (on_existing = "ask"))).
  { apply preserves_bind; [apply _|apply preserves_ensure_destination_wf|].
    intros r. apply preserves_ret, _. }
  apply preserves_bind; [apply _| |].
  { intros w w' Hfin%prompt_choice_fs. by rewrite Hfin. }
  intros choice. destruct (Str.endswith choice "-all");
    (apply preserves_bind;
       [apply _|apply preserves_ensure_destination_wf|intros r; apply preserves_ret, _]).
Qed.

(** ** What a dry run does *)

Lemma ensure_destination_fresh (fuel : nat) (dest : Path) (on_existing : string)
    (w : World) :
  fs w !! dest = None →
  fs w !! PurePath.parent dest = Some Dir →
  ensure_destination fuel dest on_existing w =
    Ok (Some dest) (mkWorld (<[dest := Dir]> (fs w)) (stdin w)).
Proof.
  intros Hdest Hparent. unfold ensure_destination.
  rewrite bind_unfold. unfold ask_fs at 1.
  rewrite (proj2 (path_exists_false dest (fs w)) Hdest). simpl.
  rewrite bind_unfold. unfold update_fs at 1.
  by rewrite (makedirs_fresh dest (fs w) Hdest (is_dir_Dir _ _ Hparent)).
Qed.

(** X15.  A dry run creates the destination directories.  So two archives
    with the same stem collide in a dry run as in a real one: under [skip],
    with a destination that does not exist in a directory that does, the
    first archive is counted as extracted, the second as skipped, and the
    run leaves the destination behind as a new directory. *)
Theorem same_stem_collides_in_dry_run
    (extension_set : list string)
    (unpack_archive : Path → Path → FS → option exn * FS)
    (fuel : nat) (plan : ExtractionPlan) (first second : Path) (w : World) :
  dry_run plan = true →
  on_existing plan = "skip" →
  archive_stem extension_set second = archive_stem extension_set first →
  fs w !! PurePath.join (output_dir plan) (archive_stem extension_set first) = None →
  fs w !! PurePath.parent
            (PurePath.join (output_dir plan) (archive_stem extension_set first))
    = Some Dir →
  extract_archives extension_set unpack_archive fuel plan [first; second] w =
    Ok (mkResult 1 1 0)
       (mkWorld (<[PurePath.join (output_dir plan) (archive_stem extension_set first)
                   := Dir]> (fs w))
                (stdin w)).
Proof.
  intros Hdry Hpol Hstem Hdest Hparent.
  set (dest := PurePath.join (output_dir plan) (archive_stem extension_set first)) in *.
  unfold extract_archives. rewrite bind_unfold. simpl extract_loop.
  rewrite Hstem. fold dest. rewrite Hpol, Hdry.
  rewrite bind_unfold, handle_existing_dest_direct by (by left).
  rewrite bind_unfold, (ensure_destination_fresh fuel dest "skip" w Hdest Hparent).
  unfold mret at 1, M_ret at 1. rewrite bind_unfold.
  rewrite handle_existing_dest_skip; [done|].
  apply path_exists_true. simpl. by rewrite lookup_insert_eq.
Qed.

Lemma ensure_destination_overwrite (fuel : nat) (dest : Path) (w : World) :
  fs_wf (fs w) →
  fs w !! dest = Some Dir →
  (∀ c, Os.child_of dest c → fs w !! c ≠ Some DirLink) →
  ∃ files',
    ensure_destination fuel dest "overwrite" w = Ok (Some dest) (mkWorld files' (stdin w)) ∧
    files' !! dest = Some Dir ∧
    (∀ q, below dest q → files' !! q = None) ∧
    (∀ q, ¬ below dest q → files' !! q = fs w !! q).
Proof.
  intros Hwf Hdest Hnolink. destruct w as [files lines]. simpl in *.
  destruct (iterdir_dir dest files (is_dir_Dir _ _ Hdest))
    as (children & Hiter & Hnodup & Hin).
  destruct (overwrite_loop_clears dest files lines Hwf children files)
    as (files' & Hrun & Hgone & Hkept).
  { done. }
  { intros c Hc. by apply Hin. }
  { intros c Hc. by apply Hnolink, Hin. }
  { done. }
  assert (Hcovered : ∀ q, Exists (λ c, c `prefix_of` q) children → below dest q).
  { intros q (c & Hc%Hin & Hpre)%Exists_exists.
    eapply child_of_below; [apply Hc|done]. }
  assert (Hnot : ∀ q, ¬ below dest q → files' !! q = files !! q).
  { intros q Hq. apply Hkept. intros H. by apply Hq, Hcovered. }
  exists files'. split_and!.
  - unfold ensure_destination. rewrite bind_unfold. unfold ask_fs at 1. simpl.
    assert (Os.path_exists dest files = true) as ->
      by (apply path_exists_true; by rewrite Hdest).
    simpl. rewrite bind_unfold. unfold query_fs at 1. simpl. rewrite Hiter.
    by rewrite bind_unfold, Hrun.
  - rewrite Hnot; [done|]. by intros [_ ?].
  - intros q Hq.
    destruct (decide (Exists (λ c, c `prefix_of` q) children)) as [|Hn];
      [by apply Hgone|].
    rewrite Hkept by done. apply eq_None_not_Some. intros Hsome.
    apply Hn. destruct (below_child dest q Hq) as (c & Hc & Hpre).
    apply Exists_exists. exists c. split; [|done]. apply Hin. split; [done|].
    destruct (decide (c = q)) as [->|Hne]; [done|].
    by apply is_dir_is_Some, (fs_wf_ancestor files c q).
  - exact Hnot.
Qed.

(** X16.  A dry run is not free of effects: under [overwrite], an archive
    whose destination is an existing directory, no entry of which is a
    symbolic link to a directory, has everything below that directory
    deleted, is counted as extracted, and the loop goes on with the other
    archives from the emptied directory. *)
Theorem dry_run_overwrite_still_deletes
    (extension_set : list string)
    (unpack_archive : Path → Path → FS → option exn * FS)
    (fuel : nat) (plan : ExtractionPlan) (archive : Path) (rest : list Path)
    (st : Locals) (w : World) :
  dry_run plan = true →
  policy st = "overwrite" →
  fs_wf (fs w) →
  fs w !! PurePath.join (output_dir plan) (archive_stem extension_set archive)
    = Some Dir →
  (∀ c, Os.child_of
          (PurePath.join (output_dir plan) (archive_stem extension_set archive)) c →
        fs w !! c ≠ Some DirLink) →
  ∃ files',
    extract_loop extension_set unpack_archive fuel plan (archive :: rest) st w =
      extract_loop extension_set unpack_archive fuel plan rest
        (mkLocals "overwrite" (n_extracted st + 1) (n_skipped st) (n_failed st))
        (mkWorld files' (stdin w)) ∧
    files' !! PurePath.join (output_dir plan) (archive_stem extension_set archive)
      = Some Dir ∧
    (∀ q, below (PurePath.join (output_dir plan) (archive_stem extension_set archive)) q →
          files' !! q = None) ∧
    (∀ q, ¬ below (PurePath.join (output_dir plan) (archive_stem extension_set archive)) q →
          files' !! q = fs w !! q).
Proof.
  intros Hdry Hpol Hwf Hdest Hnolink.
  set (dest := PurePath.join (output_dir plan) (archive_stem extension_set archive)) in *.
  destruct (ensure_destination_overwrite fuel dest w Hwf Hdest Hnolink)
    as (files' & Hens & Hkept & Hgone & Hother).
  exists files'. split; [|done].
  simpl extract_loop. fold dest. rewrite Hpol, Hdry.
  rewrite bind_unfold, handle_existing_dest_direct by (by left).
  by rewrite bind_unfold, Hens.
Qed.

(** ** The output directory *)

Lemma prefix_snoc_cases (q k : Path) (x : string) :
  q `prefix_of` k ++ [x] → q = k ++ [x] ∨ q `prefix_of` k.
Proof.
  intros [t Ht]. destruct t as [|y t _] using rev_ind.
  - left. by rewrite app_nil_r in Ht.
  - right. rewrite app_assoc in Ht. apply app_inj_tail in Ht as [-> _].
    by exists t.
Qed.

(** [mkdir(parents=True, exist_ok=True)] on a path none of whose ancestors
    is a regular file: the missing ones among the path and its ancestors
    are new directories afterwards, and no entry that existed has changed. *)
Lemma makedirs_rev_spec (rp : list string) (files : FS) :
  fs_wf files →
  (∀ q c, q `prefix_of` reverse rp → files !! q ≠ Some (File c)) →
  ∃ files',
    Os.makedirs_rev rp files = inr files' ∧
    (∀ q, q `prefix_of` reverse rp → files !! q = None → files' !! q = Some Dir) ∧
    (∀ q, is_Some (files !! q) ∨ ¬ q `prefix_of` reverse rp →
          files' !! q = files !! q).
Proof.
  intros Hwf. induction rp as [|x rp IH]; intros Hfree.
  - exists files. pose proof Hwf as [Hroot _]. split_and!.
    + simpl. unfold Os.mkdir, Os.is_dir. by rewrite reverse_nil, Hroot.
    + intros q Hq. rewrite reverse_nil in Hq. apply prefix_nil_inv in Hq as ->.
      by rewrite Hroot.
    + done.
  - assert (Hp : reverse (x :: rp) = reverse rp ++ [x]) by apply reverse_cons.
    assert (Hparent : PurePath.parent (reverse (x :: rp)) = reverse rp).
    { rewrite Hp. apply parent_snoc. }
    assert (Hne : reverse rp ≠ reverse (x :: rp)).
    { rewrite Hp. intros Heq. apply (f_equal length) in Heq.
      rewrite length_app in Heq. simpl in Heq. lia. }
    assert (Hup : reverse rp `prefix_of` reverse (x :: rp)).
    { rewrite Hp. by apply prefix_app_r. }
    assert (Hcases : ∀ q, q `prefix_of` reverse (x :: rp) →
              q = reverse (x :: rp) ∨ q `prefix_of` reverse rp).
    { intros q Hq. rewrite Hp in Hq. rewrite Hp. by apply prefix_snoc_cases. }
    assert (Hanc : ∀ q r, is_Some (files !! r) → q `prefix_of` r → is_Some (files !! q)).
    { intros q r Hr Hq. destruct (decide (q = r)) as [->|Hqr]; [done|].
      by apply is_dir_is_Some, (fs_wf_ancestor files q r). }
    destruct (files !! reverse (x :: rp)) as [node|] eqn:Hdest.
    + (* the path exists: a directory or a link to one *)
      exists files. split_and!.
      * assert (Hd : Os.is_dir (reverse (x :: rp)) files = true).
        { unfold Os.is_dir. rewrite Hdest. destruct node as [c| |]; [|done..].
          by destruct (Hfree (reverse (x :: rp)) c). }
        simpl. unfold Os.mkdir. by rewrite Hdest, Hd.
      * intros q Hq Hnone. destruct (Hanc q (reverse (x :: rp))) as [y Hy];
          [by rewrite Hdest|done|congruence].
      * done.
    + destruct (files !! reverse rp) as [node|] eqn:Hpar.
      * (* the parent exists *)
        assert (Hd : Os.is_dir (reverse rp) files = true).
        { unfold Os.is_dir. rewrite Hpar. destruct node as [c| |]; [|done..].
          by destruct (Hfree (reverse rp) c). }
        exists (<[reverse (x :: rp) := Dir]> files). split_and!.
        -- apply makedirs_rev_mkdir, mkdir_fresh; [done|by rewrite Hparent].
        -- intros q Hq Hnone. destruct (Hcases q Hq) as [->|Hq'];
             [by rewrite lookup_insert_eq|].
           destruct (Hanc q (reverse rp)) as [y Hy];
             [by rewrite Hpar|done|congruence].
        -- intros q Hq. apply lookup_insert_ne. intros <-.
           destruct Hq as [[y Hy]|Hq]; [congruence|by apply Hq].
      * (* the parent is missing: it is made first *)
        destruct IH as (files1 & Hrec & Hnew & Hkept).
        { intros q c Hq. apply Hfree. by trans (reverse rp). }
        assert (Hdest1 : files1 !! reverse (x :: rp) = None).
        { rewrite Hkept; [done|]. right. rewrite Hp. apply prefix_snoc_not. }
        assert (Hpar1 : files1 !! reverse rp = Some Dir) by (by apply Hnew).
        exists (<[reverse (x :: rp) := Dir]> files1). split_and!.
        -- simpl. unfold Os.mkdir at 1. rewrite Hdest, Hparent, Hpar, Hrec.
           unfold Os.mkdir. by rewrite Hdest1, Hparent, Hpar1.
        -- intros q Hq Hnone. destruct (Hcases q Hq) as [->|Hq'];
             [by rewrite lookup_insert_eq|].
           rewrite lookup_insert_ne by (intros <-; by apply (prefix_snoc_not (reverse rp) x);
                                          rewrite <- Hp).
           by apply Hnew.
        -- intros q Hq.
           assert (Hq' : reverse (x :: rp) ≠ q).
           { intros <-. destruct Hq as [[y Hy]|Hq]; [congruence|by apply Hq]. }
           rewrite lookup_insert_ne by done. apply Hkept.
           destruct Hq as [Hq|Hq]; [by left|]. right.
           intros Hpre. apply Hq. by trans (reverse rp).
Qed.

Lemma makedirs_spec (p : Path) (files : FS) :
  fs_wf files →
  (∀ q c, q `prefix_of` p → files !! q ≠ Some (File c)) →
  ∃ files',
    Os.makedirs p files = inr files' ∧
    (∀ q, q `prefix_of` p → files !! q = None → files' !! q = Some Dir) ∧
    (∀ q, is_Some (files !! q) ∨ ¬ q `prefix_of` p → files' !! q = files !! q).
Proof.
  intros Hwf Hfree. unfold Os.makedirs.
  destruct (makedirs_rev_spec (reverse p) files Hwf) as (files' & Hrun & H);
    rewrite reverse_involutive in *; eauto.
Qed.

Lemma makedirs_on_file (p : Path) (c : string) (files : FS) :
  files !! p = Some (File c) → Os.makedirs p files = inl FileExistsError.
Proof.
  intros Hp. unfold Os.makedirs.
  assert (Hm : Os.mkdir (reverse (reverse p)) files = inl FileExistsError).
  { unfold Os.mkdir. by rewrite reverse_involutive, Hp. }
  assert (Hd : Os.is_dir (reverse (reverse p)) files = false).
  { unfold Os.is_dir. by rewrite reverse_involutive, Hp. }
  destruct (reverse p); simpl; by rewrite Hm, Hd.
Qed.

Lemma main_found
    (extension_set : list string) (glob rglob : Path → string → FS → list Path)
    (unpack_archive : Path → Path → FS → option exn * FS)
    (fuel : nat) (plan : ExtractionPlan) (w : World) :
  Os.path_exists (input_dir plan) (fs w) = true →
  collect_archives extension_set glob rglob plan (fs w) ≠ [] →
  main extension_set glob rglob unpack_archive fuel plan w =
    (update_fs (Os.makedirs (output_dir plan));;
     result ← extract_archives extension_set unpack_archive fuel plan
                (collect_archives extension_set glob rglob plan (fs w));
     mret (if decide (failed result = 0) then 0 else 1)) w.
Proof.
  intros Hin Harchives.
  match goal with |- _ = ?r => set (rhs := r) end.
  unfold main. rewrite bind_unfold. unfold ask_fs at 1. rewrite Hin. simpl.
  rewrite bind_unfold. unfold ask_fs at 1. subst rhs.
  by destruct (collect_archives _ _ _ _ _) as [|a l] eqn:Hc.
Qed.

(** X17.  When archives are found, [main] creates the output directory with
    its missing ancestors before the batch starts, in a dry run as in a real
    one: if no ancestor of the output path is a regular file, the batch runs
    in a file system where the output path and its ancestors are
    directories, those that were missing as new directories, and every
    entry that existed is as before. *)
Theorem main_creates_output_dir
    (extension_set : list string) (glob rglob : Path → string → FS → list Path)
    (unpack_archive : Path → Path → FS → option exn * FS)
    (fuel : nat) (plan : ExtractionPlan) (w : World) :
  fs_wf (fs w) →
  is_Some (fs w !! input_dir plan) →
  collect_archives extension_set glob rglob plan (fs w) ≠ [] →
  (∀ q c, q `prefix_of` output_dir plan → fs w !! q ≠ Some (File c)) →
  ∃ files',
    (∀ q, q `prefix_of` output_dir plan → Os.is_dir q files' = true) ∧
    (∀ q, q `prefix_of` output_dir plan → fs w !! q = None → files' !! q = Some Dir) ∧
    (∀ q, is_Some (fs w !! q) ∨ ¬ q `prefix_of` output_dir plan →
          files' !! q = fs w !! q) ∧
    main extension_set glob rglob unpack_archive fuel plan w =
      (result ← extract_archives extension_set unpack_archive fuel plan
                  (collect_archives extension_set glob rglob plan (fs w));
       mret (if decide (failed result = 0) then 0 else 1))
        (mkWorld files' (stdin w)).
Proof.
  intros Hwf Hin%path_exists_true Harchives Hfree.
  destruct (makedirs_spec (output_dir plan) (fs w) Hwf Hfree)
    as (files' & Hrun & Hnew & Hkept).
  exists files'. split_and!; [|done|done|].
  - intros q Hq. unfold Os.is_dir.
    destruct (fs w !! q) as [node|] eqn:Hq0.
    + rewrite Hkept, Hq0 by (left; by rewrite Hq0).
      destruct node as [c| |]; [|done..]. by destruct (Hfree q c).
    + by rewrite Hnew.
  - rewrite main_found by done.
    rewrite bind_unfold. unfold update_fs at 1. by rewrite Hrun.
Qed.

(** X18.  When archives are found and the output path is a regular file,
    [main] ends with the [FileExistsError] of [mkdir], not with an exit
    status; no archive is handled and the file system is untouched. *)
Theorem output_file_aborts_main
    (extension_set : list string) (glob rglob : Path → string → FS → list Path)
    (unpack_archive : Path → Path → FS → option exn * FS)
    (fuel : nat) (plan : ExtractionPlan) (w : World) (content : string) :
  is_Some (fs w !! input_dir plan) →
  collect_archives extension_set glob rglob plan (fs w) ≠ [] →
  fs w !! output_dir plan = Some (File content) →
  main extension_set glob rglob unpack_archive fuel plan w = Raise FileExistsError w.
Proof.
  intros Hin%path_exists_true Harchives Hout.
  rewrite main_found by done.
  rewrite bind_unfold. unfold update_fs at 1.
  by rewrite (makedirs_on_file _ _ _ Hout).
Qed.

(** ** The interactive dialogue *)

Global Instance same_fs_preorder : PreOrder (λ w w' : World, fs w' = fs w).
Proof. split; [done|]. intros w1 w2 w3 H12 H23. congruence. Qed.

Lemma prompt_ok (default reply : string) (w w' : World) :
  prompt default w = Ok reply w' →
  ∃ line, stdin w = line :: stdin w' ∧ reply = prompt_reply default line ∧
          fs w' = fs w.
Proof.
  unfold prompt. rewrite bind_unfold. unfold input.
  destruct (stdin w) as [|line rest]; [done|].
  intros [= <- <-]. by exists line.
Qed.

Lemma preserves_prompt_fs (default : string) :
  preserves (λ w w', fs w' = fs w) (prompt default).
Proof.
  intros w w'. unfold prompt. rewrite bind_unfold. unfold input.
  destruct (stdin w); by intros [= <-].
Qed.

Lemma preserves_prompt_yes_no_fs (default : bool) :
  preserves (λ w w', fs w' = fs w) (prompt_yes_no default).
Proof.
  intros [files lines] w'. unfold prompt_yes_no. simpl.
  induction lines as [|line rest IH]; simpl; [by intros [= <-]|].
  repeat case_decide; try by intros [= <-]. done.
Qed.

Lemma preserves_interactive_plan_fs (cwd : Path) (resolve_str : string → Path) :
  preserves (λ w w', fs w' = fs w) (interactive_plan cwd resolve_str).
Proof.
  unfold interactive_plan.
  apply preserves_bind; [apply _|apply preserves_prompt_fs|]. intros reply1.
  apply preserves_bind; [apply _|apply preserves_prompt_fs|]. intros reply2.
  apply preserves_bind; [apply _|apply preserves_prompt_yes_no_fs|]. intros recursive.
  apply preserves_bind; [apply _|apply preserves_prompt_fs|]. intros pattern.
  apply preserves_bind; [apply _| |]. { intros w w'. apply prompt_choice_fs. }
  intros on_existing.
  apply preserves_bind; [apply _|apply preserves_prompt_yes_no_fs|]. intros dry.
  apply preserves_bind; [apply _|apply preserves_prompt_yes_no_fs|]. intros proceed.
  destruct (negb proceed); apply preserves_ret, _.
Qed.

(** X19.  The dialogue only talks: however [interactive_plan] ends (with a
    plan, cancelled, or with the [EOFError] of a prompt), the file system is
    untouched; and the policy of a plan it returns is one of the four
    policies. *)
Theorem dialogue_gives_valid_plan (cwd : Path) (resolve_str : string → Path)
    (w : World) :
  (∀ w', final_world (interactive_plan cwd resolve_str w) = Some w' → fs w' = fs w) ∧
  (∀ plan w', interactive_plan cwd resolve_str w = Ok (Some plan) w' →
              valid_policy (on_existing plan)).
Proof.
  split; [intros w'; apply preserves_interactive_plan_fs|].
  intros plan w'. unfold interactive_plan.
  intros (reply1 & w1 & _ & H)%bind_ok_inv.
  apply bind_ok_inv in H as (reply2 & w2 & _ & H).
  apply bind_ok_inv in H as (recursive & w3 & _ & H).
  apply bind_ok_inv in H as (pattern & w4 & _ & H).
  apply bind_ok_inv in H as (policy & w5 & Hpolicy & H).
  apply bind_ok_inv in H as (dry & w6 & _ & H).
  apply bind_ok_inv in H as (proceed & w7 & _ & H).
  destruct (negb proceed); [done|]. injection H as <- _.
  by apply prompt_choice_loop_ok in Hpolicy as [? _].
Qed.

(** X20.  A run that enters the dialogue (asked for with [--interactive], or
    because neither an input nor an output directory was given) and whose
    operator declines the final confirmation exits with status 0 and has
    not touched the file system. *)
Theorem cancelled_run_exits_cleanly
    (cwd : Path) (resolve_str : string → Path)
    (RawPath : Type) (raw_cwd : RawPath) (raw_join : RawPath → string → RawPath)
    (resolve_raw : RawPath → Path)
    (extension_set : list string) (glob rglob : Path → string → FS → list Path)
    (unpack_archive : Path → Path → FS → option exn * FS)
    (fuel : nat) (args : Args RawPath) (w w' : World) :
  arg_interactive RawPath args = true ∨
    (arg_input RawPath args = None ∧ arg_output RawPath args = None) →
  interactive_plan cwd resolve_str w = Ok None w' →
  main_from_args cwd resolve_str RawPath raw_cwd raw_join resolve_raw
    extension_set glob rglob unpack_archive fuel args w = Ok 0 w' ∧
  fs w' = fs w.
Proof.
  intros Hdialogue Hplan. split.
  - unfold main_from_args.
    assert (arg_interactive RawPath args
            || negb (bool_decide (is_Some (arg_input RawPath args) ∨
                                  is_Some (arg_output RawPath args))) = true) as ->.
    { destruct Hdialogue as [->|[-> ->]]; [done|].
      rewrite bool_decide_eq_false_2; [apply orb_true_r|].
      by intros [[]|[]]. }
    by rewrite bind_unfold, Hplan.
  - apply (preserves_interactive_plan_fs cwd resolve_str). by rewrite Hplan.
Qed.

(** X21.  Without an input and without an output directory on the command
    line the dialogue runs whether or not [--interactive] was given, and
    every other option of the command line ([--recursive], [--pattern],
    [--on-existing], [--dry-run]) is ignored: two such command lines run
    alike. *)
Theorem options_ignored_without_paths
    (cwd : Path) (resolve_str : string → Path)
    (RawPath : Type) (raw_cwd : RawPath) (raw_join : RawPath → string → RawPath)
    (resolve_raw : RawPath → Path)
    (extension_set : list string) (glob rglob : Path → string → FS → list Path)
    (unpack_archive : Path → Path → FS → option exn * FS)
    (fuel : nat) (args args' : Args RawPath) (w : World) :
  arg_input RawPath args = None → arg_output RawPath args = None →
  arg_input RawPath args' = None → arg_output RawPath args' = None →
  main_from_args cwd resolve_str RawPath raw_cwd raw_join resolve_raw
    extension_set glob rglob unpack_archive fuel args w =
  main_from_args cwd resolve_str RawPath raw_cwd raw_join resolve_raw
    extension_set glob rglob unpack_archive fuel args' w.
Proof.
  intros Hin Hout Hin' Hout'. unfold main_from_args.
  rewrite Hin, Hout, Hin', Hout'.
  rewrite bool_decide_eq_false_2 by (by intros [[]|[]]).
  by rewrite !orb_true_r.
Qed.

Lemma lstrip_idemp (s : string) : Str.lstrip (Str.lstrip s) = Str.lstrip s.
Proof.
  induction s as [|c s IH]; [done|]. simpl.
  destruct (Str.isspace c) eqn:Hc; [done|]. simpl. by rewrite Hc.
Qed.

Lemma rev_app_nil (s acc : string) :
  String.rev_app s acc = "" ↔ s = "" ∧ acc = "".
Proof.
  revert acc. induction s as [|c s IH]; intros acc; simpl; [by intuition|].
  rewrite IH. by intuition.
Qed.

Lemma lstrip_rev_app (s acc : string) :
  Str.lstrip (String.rev_app s acc) = "" ↔ Str.lstrip s = "" ∧ Str.lstrip acc = "".
Proof.
  revert acc. induction s as [|c s IH]; intros acc; simpl; [by intuition|].
  rewrite IH. simpl. destruct (Str.isspace c); by intuition.
Qed.

(** Stripping leaves nothing exactly when stripping on the left does. *)
Lemma strip_nil_iff (s : string) : Str.strip s = "" ↔ Str.lstrip s = "".
Proof.
  unfold Str.strip, String.rev. rewrite rev_app_nil, lstrip_rev_app, lstrip_idemp.
  by intuition.
Qed.

Lemma strip_strip_nil (s : string) : Str.strip (Str.strip s) = "" ↔ Str.strip s = "".
Proof.
  rewrite (strip_nil_iff (Str.strip s)). unfold Str.strip, String.rev.
  rewrite lstrip_rev_app, lstrip_idemp, rev_app_nil. by intuition.
Qed.

(** What [normalize_path] strips from the reply to a prompt whose default is
    the text of a path is never empty. *)
Lemma strip_path_reply (p : Path) (line : string) :
  Str.strip (prompt_reply (path_str p) line) ≠ "".
Proof.
  unfold prompt_reply. case_decide as Hline.
  - rewrite strip_nil_iff. unfold path_str. by rewrite string_app_cons.
  - by rewrite strip_strip_nil.
Qed.

(** X22.  In the dialogue the fallback of [normalize_path] is never taken:
    the input and the output directory of a returned plan are always the
    resolution of a non-empty text, the stripped reply to the first and to
    the second prompt (for an empty reply, the stripped text of the default
    path that the prompt printed, not that path itself). *)
Theorem dialogue_paths_are_resolved (cwd : Path) (resolve_str : string → Path)
    (w w' : World) (plan : ExtractionPlan) :
  interactive_plan cwd resolve_str w = Ok (Some plan) w' →
  ∃ line1 line2 rest,
    stdin w = line1 :: line2 :: rest ∧
    Str.strip (prompt_reply (path_str cwd) line1) ≠ "" ∧
    input_dir plan = resolve_str (Str.strip (prompt_reply (path_str cwd) line1)) ∧
    Str.strip (prompt_reply
                 (path_str (PurePath.join (input_dir plan) "extracted")) line2) ≠ "" ∧
    output_dir plan =
      resolve_str
        (Str.strip (prompt_reply
                      (path_str (PurePath.join (input_dir plan) "extracted")) line2)).
Proof.
  unfold interactive_plan.
  intros (reply1 & w1 & (line1 & Hin1 & -> & _)%prompt_ok & H)%bind_ok_inv.
  apply bind_ok_inv in H as (reply2 & w2 & (line2 & Hin2 & -> & _)%prompt_ok & H).
  apply bind_ok_inv in H as (recursive & w3 & _ & H).
  apply bind_ok_inv in H as (pattern & w4 & _ & H).
  apply bind_ok_inv in H as (policy & w5 & _ & H).
  apply bind_ok_inv in H as (dry & w6 & _ & H).
  apply bind_ok_inv in H as (proceed & w7 & _ & H).
  destruct (negb proceed); [done|]. injection H as <- _. simpl.
  exists line1, line2, (stdin w2). unfold normalize_path.
  pose proof (strip_path_reply cwd line1) as Hne1.
  rewrite (decide_False _ _ Hne1).
  pose proof (strip_path_reply
                (PurePath.join
                   (resolve_str (Str.strip (prompt_reply (path_str cwd) line1)))
                   "extracted") line2) as Hne2.
  rewrite (decide_False _ _ Hne2).
  split_and!; try done. by rewrite Hin1, Hin2.
Qed.

(** ** Skips and fresh destinations *)

Lemma ensure_destination_none (fuel : nat) (dest : Path) (on_existing : string)
    (w w' : World) :
  on_existing ∈ ["skip"; "overwrite"; "rename"] →
  ensure_destination fuel dest on_existing w = Ok None w' →
  w' = w ∧ is_Some (fs w !! dest) ∧ on_existing = "skip".
Proof.
  intros Hpol. unfold ensure_destination. rewrite bind_unfold. unfold ask_fs at 1.
  destruct (Os.path_exists dest (fs w)) eqn:Hex; simpl.
  - apply path_exists_true in Hex.
    repeat (apply elem_of_cons in Hpol as [->|Hpol]);
      [| | |by apply elem_of_nil in Hpol]; simpl.
    + by intros [= <-].
    + by intros (children & w1 & _ & (u & w2 & _ & [=])%bind_ok_inv)%bind_ok_inv.
    + by intros (candidate & w1 & _ & [=])%bind_ok_inv.
  - by intros (u & w1 & _ & [=])%bind_ok_inv.
Qed.

(** X23.  An archive is skipped only on a collision, and skipping does
    nothing: when a batch policy or a reply of the operator makes the
    resolver return no directory, the destination exists and the file
    system is as it was. *)
Theorem skipped_archive_is_untouched (fuel : nat) (dest : Path)
    (on_existing on_existing' : string) (w w' : World) :
  valid_policy on_existing →
  handle_existing_dest fuel dest on_existing w = Ok (None, on_existing') w' →
  is_Some (fs w !! dest) ∧ fs w' = fs w.
Proof.
  intros Hvalid. unfold handle_existing_dest. rewrite bind_unfold. unfold ask_fs at 1.
  assert (Hret : ∀ (r : option Path) (pol : string) (w1 : World),
            (mret (r, pol) : M _) w1 = Ok (None, on_existing') w' → r = None ∧ w' = w1).
  { intros r pol w1. unfold mret, M_ret. by intros [= -> _ ->]. }
  destruct (Os.path_exists dest (fs w)) eqn:Hex; simpl.
  - apply path_exists_true in Hex. case_bool_decide as Hask; simpl.
    + intros (choice & w1 & Hchoice & H)%bind_ok_inv.
      pose proof Hchoice as [Hin [Hfs _]]%prompt_choice_loop_ok.
      destruct (collision_choice_cases choice Hin) as [[Hend Hc]|[Hend Hc]];
        rewrite Hend in H;
        apply bind_ok_inv in H as (r & w2 & Hens & [-> ->]%Hret);
        apply ensure_destination_none in Hens as [-> _]; done.
    + intros (r & w1 & Hens & [-> ->]%Hret)%bind_ok_inv.
      apply ensure_destination_none in Hens as [-> _]; [done|].
      unfold valid_policy in Hvalid.
      apply elem_of_cons in Hvalid as [->|Hvalid]; done.
  - intros (r & w1 & Hens & [-> ->]%Hret)%bind_ok_inv.
    unfold ensure_destination in Hens. rewrite bind_unfold in Hens.
    unfold ask_fs at 1 in Hens. rewrite Hex in Hens. simpl in Hens.
    by apply bind_ok_inv in Hens as (u & w2 & _ & [=]).
Qed.

(** X24.  The policy matters only on a collision: for a destination that
    does not exist in a directory that does, whatever the policy ([ask]
    included), the operator is not asked, the destination is created and
    returned, and the policy is carried on unchanged. *)
Theorem fresh_destination_needs_no_policy (fuel : nat) (dest : Path)
    (on_existing : string) (w : World) :
  fs w !! dest = None →
  fs w !! PurePath.parent dest = Some Dir →
  handle_existing_dest fuel dest on_existing w =
    Ok (Some dest, on_existing) (mkWorld (<[dest := Dir]> (fs w)) (stdin w)).
Proof.
  intros Hdest Hparent.
  rewrite handle_existing_dest_direct by (right; by apply path_exists_false).
  by rewrite bind_unfold, (ensure_destination_fresh fuel dest on_existing w Hdest Hparent).
Qed.

(** * The further cases, through the theorems *)

(** X1 on the scenario: [what] is refused, [ skip-all ] is the reply. *)
Lemma prompt_choice_returns_a_choice_witness :
  "skip-all" ∈ ["skip"; "overwrite"; "rename"; "skip-all"; "overwrite-all"; "rename-all"] ∧
  fs (mkWorld Scenario.files ["unused"]) = fs Scenario.world ∧
  ∃ refused line,
    stdin Scenario.world = refused ++ line :: stdin (mkWorld Scenario.files ["unused"]) ∧
    prompt_reply "skip" line = "skip-all" ∧
    Forall (λ l, prompt_reply "skip" l ∉
                 ["skip"; "overwrite"; "rename"; "skip-all"; "overwrite-all"; "rename-all"])
           refused.
Proof.
  apply (prompt_choice_returns_a_choice
           ["skip"; "overwrite"; "rename"; "skip-all"; "overwrite-all"; "rename-all"]
           "skip" Scenario.world (mkWorld Scenario.files ["unused"]) "skip-all").
  by_evaluation.
Defined.

(** X2 with an operator whose two replies are refused. *)
Lemma prompt_choice_raises_eof_witness :
  prompt_choice
    ["skip"; "overwrite"; "rename"; "skip-all"; "overwrite-all"; "rename-all"]
    "skip" Cases.deaf_world = Raise EOFError (mkWorld (fs Cases.deaf_world) []).
Proof.
  apply (proj1 (prompt_choice_raises_eof
                  ["skip"; "overwrite"; "rename"; "skip-all"; "overwrite-all"; "rename-all"]
                  "skip" Cases.deaf_world)).
  by_evaluation.
Defined.

(** X4: the reply [rename] for [dest/out]. *)
Lemma plain_choice_keeps_asking_witness :
  handle_existing_dest 20 ["dest"; "out"] "ask" Cases.plain_world =
    (r ← ensure_destination 20 ["dest"; "out"] "rename"; mret (r, "ask"))
      (mkWorld Scenario.files ["unused"]).
Proof.
  apply (plain_choice_keeps_asking 20 ["dest"; "out"] "rename" Cases.plain_world
           (mkWorld Scenario.files ["unused"])).
  - by_evaluation.
  - by_evaluation.
  - by_evaluation.
Defined.

(** X5 on the scenario: the batch starts with [ask] and ends with [skip]. *)
Lemma policy_stays_valid_witness :
  let run :=
    extract_loop Scenario.extension_set Scenario.unpack_archive 20 Scenario.plan
      Scenario.archives (mkLocals "ask" 0 0 0) Scenario.world in
  valid_policy (policy (res_value (mkLocals "" 0 0 0) run)) ∧
  policy (res_value (mkLocals "" 0 0 0) run) = "skip".
Proof.
  intros run. split; [|by_evaluation].
  apply (policy_stays_valid Scenario.extension_set Scenario.unpack_archive 20
           Scenario.plan Scenario.archives (mkLocals "ask" 0 0 0)
           (res_value (mkLocals "" 0 0 0) run) Scenario.world
           (res_world Cases.deaf_world run)).
  - unfold valid_policy. by_evaluation.
  - by_evaluation.
Defined.

(** X6: [unzip-cx -i /in --on-existing skip] leaves the three pending lines. *)
Lemma unattended_run_reads_no_input_witness :
  let run :=
    main_from_args Cases.cwd Cases.resolve_str Path Cases.cwd Cases.raw_join
      Cases.resolve_raw Scenario.extension_set Scenario.glob Scenario.glob
      Scenario.unpack_archive 20 Cases.skip_args Scenario.world in
  stdin (res_world Cases.deaf_world run) = stdin Scenario.world.
Proof.
  intros run.
  apply (unattended_run_reads_no_input Cases.cwd Cases.resolve_str Path Cases.cwd
           Cases.raw_join Cases.resolve_raw Scenario.extension_set Scenario.glob
           Scenario.glob Scenario.unpack_archive 20 Cases.skip_args Scenario.world
           (res_world Cases.deaf_world run)).
  - reflexivity.
  - by_evaluation.
  - by_evaluation.
  - by_evaluation.
Defined.

(** X7: [out.tar.gz] collides and the operator gives no reply that counts. *)
Lemma prompt_eof_aborts_batch_witness :
  extract_loop Scenario.extension_set Scenario.unpack_archive 20 Scenario.plan
    (["in"; "out.tar.gz"] :: [["in"; "out_1.ZIP"]]) (mkLocals "ask" 0 0 0)
    Cases.deaf_world =
  Raise EOFError (mkWorld (fs Cases.deaf_world) []).
Proof.
  apply (prompt_eof_aborts_batch Scenario.extension_set Scenario.unpack_archive 20
           Scenario.plan ["in"; "out.tar.gz"] [["in"; "out_1.ZIP"]]
           (mkLocals "ask" 0 0 0) Cases.deaf_world).
  - reflexivity.
  - by_evaluation.
  - by_evaluation.
Defined.

(** X8: [dest/a] is a regular file and the policy is [overwrite]. *)
Lemma destination_error_aborts_batch_witness :
  extraction_error NotADirectoryError = true ∧
  extract_loop Scenario.extension_set Scenario.unpack_archive 20 Scenario.plan
    (["in"; "a.zip"] :: [["in"; "b.tgz"]]) (mkLocals "overwrite" 0 0 0)
    Cases.blocked_world =
  Raise NotADirectoryError Cases.blocked_world.
Proof.
  apply (destination_error_aborts_batch Scenario.extension_set Scenario.unpack_archive
           20 Scenario.plan ["in"; "a.zip"] [["in"; "b.tgz"]]
           (mkLocals "overwrite" 0 0 0) Cases.blocked_world).
  - reflexivity.
  - by_evaluation.
Defined.

(** X9: the unpacker crashes on [a.zip]; [b.tgz] is not reached. *)
Lemma unexpected_unpack_error_aborts_batch_witness :
  extract_loop Scenario.extension_set Cases.unpack_crash 20 Cases.skip_plan
    (["in"; "a.zip"] :: [["in"; "b.tgz"]]) (mkLocals "skip" 0 0 0) Scenario.world =
  Raise OtherError
    (mkWorld (<[["dest"; "a"; "partial"] := File "da"]>
                (<[["dest"; "a"] := Dir]> Scenario.files))
             (stdin (mkWorld (<[["dest"; "a"] := Dir]> Scenario.files)
                             (stdin Scenario.world)))).
Proof.
  assert (Hdry : dry_run Cases.skip_plan = false) by reflexivity.
  assert (Hdest :
    handle_existing_dest 20
      (PurePath.join (output_dir Cases.skip_plan)
         (archive_stem Scenario.extension_set ["in"; "a.zip"]))
      (policy (mkLocals "skip" 0 0 0)) Scenario.world =
    Ok (Some ["dest"; "a"], "skip")
       (mkWorld (<[["dest"; "a"] := Dir]> Scenario.files) (stdin Scenario.world)))
    by by_evaluation.
  assert (Hunpack :
    Cases.unpack_crash ["in"; "a.zip"] ["dest"; "a"]
      (fs (mkWorld (<[["dest"; "a"] := Dir]> Scenario.files) (stdin Scenario.world))) =
    (Some OtherError,
     <[["dest"; "a"; "partial"] := File "da"]>
       (<[["dest"; "a"] := Dir]> Scenario.files)))
    by by_evaluation.
  apply (unexpected_unpack_error_aborts_batch Scenario.extension_set Cases.unpack_crash
           20 Cases.skip_plan ["in"; "a.zip"] [["in"; "b.tgz"]] (mkLocals "skip" 0 0 0)
           Scenario.world _ _ _ _ _ Hdry Hdest Hunpack).
  by_evaluation.
Defined.

(** X11: a file named [.ZIP] goes to the output directory itself. *)
Lemma extension_only_name_targets_output_dir_witness :
  archive_stem Scenario.extension_set (["in"] ++ [".ZIP"]) = "" ∧
  PurePath.join ["dest"] (archive_stem Scenario.extension_set (["in"] ++ [".ZIP"]))
    = ["dest"].
Proof.
  apply (extension_only_name_targets_output_dir Scenario.formats
           Scenario.extension_set ["in"] ["dest"] ".ZIP").
  - exact scenario_extension_set_ok.
  - by_evaluation.
  - by_evaluation.
Defined.

(** X12 on the scenario: nine extensions, [.GZ] in lowercase. *)
Lemma supported_extensions_spec_witness :
  NoDup (SUPPORTED_EXTENSIONS Scenario.extension_set) ∧
  StronglySorted (λ a b, String.length b ≤ String.length a)
    (SUPPORTED_EXTENSIONS Scenario.extension_set) ∧
  SUPPORTED_EXTENSIONS Scenario.extension_set =
    [".tar.bz2"; ".tar.gz"; ".tar.xz"; ".tbz2"; ".tgz"; ".tar"; ".txz"; ".zip"; ".gz"].
Proof.
  pose proof (supported_extensions_spec Scenario.formats Scenario.extension_set
                scenario_extension_set_ok) as (_ & Hnodup & _ & Hsorted).
  split; [exact Hnodup|]. split; [exact Hsorted|]. by_evaluation.
Defined.

(** X13 on the scenario: [rename] for [dest/out] only adds [dest/out_2]. *)
Lemma only_overwrite_removes_witness :
  let run := ensure_destination 20 ["dest"; "out"] "rename" Scenario.world in
  fs Scenario.world ⊆ fs (res_world Cases.deaf_world run) ∧
  stdin (res_world Cases.deaf_world run) = stdin Scenario.world.
Proof.
  intros run.
  apply (only_overwrite_removes 20 ["dest"; "out"] "rename" Scenario.world
           (res_world Cases.deaf_world run)).
  - by_evaluation.
  - by_evaluation.
Defined.

(** X14 on the scenario: [dest/out] emptied under [overwrite]. *)
Lemma resolver_keeps_well_formed_witness :
  let run := handle_existing_dest 20 ["dest"; "out"] "overwrite" Scenario.world in
  fs_wf (fs (res_world Cases.deaf_world run)) ∧
  fs (res_world Cases.deaf_world run) !! ["dest"; "out"; "d"; "y"] = None.
Proof.
  intros run. split; [|by_evaluation].
  apply (resolver_keeps_well_formed 20 ["dest"; "out"] "overwrite" Scenario.world
           (res_world Cases.deaf_world run)).
  - exact scenario_fs_wf.
  - by_evaluation.
Defined.

(** X15: [a.zip] and [a.tar.gz] both go to [dest/a]. *)
Lemma same_stem_collides_in_dry_run_witness :
  extract_archives Scenario.extension_set Scenario.unpack_archive 20
    Cases.dry_skip_plan [["in"; "a.zip"]; ["in"; "a.tar.gz"]] Scenario.world =
  Ok (mkResult 1 1 0)
     (mkWorld (<[PurePath.join (output_dir Cases.dry_skip_plan)
                   (archive_stem Scenario.extension_set ["in"; "a.zip"]) := Dir]>
                 (fs Scenario.world))
              (stdin Scenario.world)).
Proof.
  apply (same_stem_collides_in_dry_run Scenario.extension_set Scenario.unpack_archive
           20 Cases.dry_skip_plan ["in"; "a.zip"] ["in"; "a.tar.gz"] Scenario.world).
  - reflexivity.
  - reflexivity.
  - by_evaluation.
  - by_evaluation.
  - by_evaluation.
Defined.

(** X16: a dry run under [overwrite] empties [dest/out]. *)
Lemma dry_run_overwrite_still_deletes_witness :
  ∃ files',
    extract_loop Scenario.extension_set Scenario.unpack_archive 20
      Cases.dry_overwrite_plan (["in"; "out.tar.gz"] :: [["in"; "out_1.ZIP"]])
      (mkLocals "overwrite" 0 0 0) Scenario.world =
    extract_loop Scenario.extension_set Scenario.unpack_archive 20
      Cases.dry_overwrite_plan [["in"; "out_1.ZIP"]]
      (mkLocals "overwrite" (n_extracted (mkLocals "overwrite" 0 0 0) + 1)
         (n_skipped (mkLocals "overwrite" 0 0 0)) (n_failed (mkLocals "overwrite" 0 0 0)))
      (mkWorld files' (stdin Scenario.world)) ∧
    files' !! PurePath.join (output_dir Cases.dry_overwrite_plan)
                (archive_stem Scenario.extension_set ["in"; "out.tar.gz"]) = Some Dir ∧
    (∀ q, below (PurePath.join (output_dir Cases.dry_overwrite_plan)
                   (archive_stem Scenario.extension_set ["in"; "out.tar.gz"])) q →
          files' !! q = None) ∧
    (∀ q, ¬ below (PurePath.join (output_dir Cases.dry_overwrite_plan)
                     (archive_stem Scenario.extension_set ["in"; "out.tar.gz"])) q →
          files' !! q = fs Scenario.world !! q).
Proof.
  apply (dry_run_overwrite_still_deletes Scenario.extension_set Scenario.unpack_archive
           20 Cases.dry_overwrite_plan ["in"; "out.tar.gz"] [["in"; "out_1.ZIP"]]
           (mkLocals "overwrite" 0 0 0) Scenario.world).
  - reflexivity.
  - reflexivity.
  - exact scenario_fs_wf.
  - by_evaluation.
  - intros c _. apply scenario_link_free.
Defined.

(** X17: the output directory [new/deep], neither level of which exists. *)
Lemma main_creates_output_dir_witness :
  ∃ files',
    (∀ q, q `prefix_of` output_dir Cases.deep_plan → Os.is_dir q files' = true) ∧
    (∀ q, q `prefix_of` output_dir Cases.deep_plan → fs Scenario.world !! q = None →
          files' !! q = Some Dir) ∧
    (∀ q, is_Some (fs Scenario.world !! q) ∨ ¬ q `prefix_of` output_dir Cases.deep_plan →
          files' !! q = fs Scenario.world !! q) ∧
    main Scenario.extension_set Scenario.glob Scenario.glob Scenario.unpack_archive 20
      Cases.deep_plan Scenario.world =
      (result ← extract_archives Scenario.extension_set Scenario.unpack_archive 20
                  Cases.deep_plan
                  (collect_archives Scenario.extension_set Scenario.glob Scenario.glob
                     Cases.deep_plan (fs Scenario.world));
       mret (if decide (failed result = 0) then 0 else 1))
        (mkWorld files' (stdin Scenario.world)).
Proof.
  apply (main_creates_output_dir Scenario.extension_set Scenario.glob Scenario.glob
           Scenario.unpack_archive 20 Cases.deep_plan Scenario.world).
  - exact scenario_fs_wf.
  - by_evaluation.
  - by_evaluation.
  - intros q c [k Hk]. simpl in Hk.
    destruct q as [|a [|b [|x q]]]; simpl in Hk; simplify_eq; by_evaluation.
Defined.

(** X18: the output path [in/notes.txt] is a regular file. *)
Lemma output_file_aborts_main_witness :
  main Scenario.extension_set Scenario.glob Scenario.glob Scenario.unpack_archive 20
    Cases.file_output_plan Scenario.world = Raise FileExistsError Scenario.world.
Proof.
  apply (output_file_aborts_main Scenario.extension_set Scenario.glob Scenario.glob
           Scenario.unpack_archive 20 Cases.file_output_plan Scenario.world "text").
  - by_evaluation.
  - by_evaluation.
  - by_evaluation.
Defined.

(** X19: the dialogue that ends with a plan under [skip]. *)
Lemma dialogue_gives_valid_plan_witness :
  fs (mkWorld Scenario.files ["left over"]) = fs Cases.accept_world ∧
  valid_policy (on_existing (mkPlan ["in"] ["dest"] false "skip" true "*")).
Proof.
  split.
  - apply (proj1 (dialogue_gives_valid_plan Cases.cwd Cases.resolve_str
                    Cases.accept_world)).
    by_evaluation.
  - apply (proj2 (dialogue_gives_valid_plan Cases.cwd Cases.resolve_str
                    Cases.accept_world)
             (mkPlan ["in"] ["dest"] false "skip" true "*")
             (mkWorld Scenario.files ["left over"])).
    by_evaluation.
Defined.

(** X20: [unzip-cx] alone, and the operator answers [no] at the end. *)
Lemma cancelled_run_exits_cleanly_witness :
  main_from_args Cases.cwd Cases.resolve_str Path Cases.cwd Cases.raw_join
    Cases.resolve_raw Scenario.extension_set Scenario.glob Scenario.glob
    Scenario.unpack_archive 20 Cases.bare_args Cases.cancel_world =
    Ok 0 (mkWorld Scenario.files ["left over"]) ∧
  fs (mkWorld Scenario.files ["left over"]) = fs Cases.cancel_world.
Proof.
  apply (cancelled_run_exits_cleanly Cases.cwd Cases.resolve_str Path Cases.cwd
           Cases.raw_join Cases.resolve_raw Scenario.extension_set Scenario.glob
           Scenario.glob Scenario.unpack_archive 20 Cases.bare_args Cases.cancel_world
           (mkWorld Scenario.files ["left over"])).
  - right. by split.
  - by_evaluation.
Defined.

(** X21: the options of the second command line change nothing. *)
Lemma options_ignored_without_paths_witness :
  main_from_args Cases.cwd Cases.resolve_str Path Cases.cwd Cases.raw_join
    Cases.resolve_raw Scenario.extension_set Scenario.glob Scenario.glob
    Scenario.unpack_archive 20 Cases.bare_args Cases.accept_world =
  main_from_args Cases.cwd Cases.resolve_str Path Cases.cwd Cases.raw_join
    Cases.resolve_raw Scenario.extension_set Scenario.glob Scenario.glob
    Scenario.unpack_archive 20 Cases.bare_dry_args Cases.accept_world.
Proof.
  apply (options_ignored_without_paths Cases.cwd Cases.resolve_str Path Cases.cwd
           Cases.raw_join Cases.resolve_raw Scenario.extension_set Scenario.glob
           Scenario.glob Scenario.unpack_archive 20 Cases.bare_args Cases.bare_dry_args
           Cases.accept_world); reflexivity.
Defined.

(** X22: the empty first reply gives the resolution of [/in], the second
    reply that of [/dest]. *)
Lemma dialogue_paths_are_resolved_witness :
  ∃ line1 line2 rest,
    stdin Cases.accept_world = line1 :: line2 :: rest ∧
    Str.strip (prompt_reply (path_str Cases.cwd) line1) ≠ "" ∧
    input_dir (mkPlan ["in"] ["dest"] false "skip" true "*") =
      Cases.resolve_str (Str.strip (prompt_reply (path_str Cases.cwd) line1)) ∧
    Str.strip
      (prompt_reply
         (path_str (PurePath.join
                      (input_dir (mkPlan ["in"] ["dest"] false "skip" true "*"))
                      "extracted")) line2) ≠ "" ∧
    output_dir (mkPlan ["in"] ["dest"] false "skip" true "*") =
      Cases.resolve_str
        (Str.strip
           (prompt_reply
              (path_str (PurePath.join
                           (input_dir (mkPlan ["in"] ["dest"] false "skip" true "*"))
                           "extracted")) line2)).
Proof.
  apply (dialogue_paths_are_resolved Cases.cwd Cases.resolve_str Cases.accept_world
           (mkWorld Scenario.files ["left over"])
           (mkPlan ["in"] ["dest"] false "skip" true "*")).
  by_evaluation.
Defined.

(** X23 on the scenario: [dest/out] exists and the reply is [skip-all]. *)
Lemma skipped_archive_is_untouched_witness :
  is_Some (fs Scenario.world !! ["dest"; "out"]) ∧
  fs (mkWorld Scenario.files ["unused"]) = fs Scenario.world.
Proof.
  apply (skipped_archive_is_untouched 20 ["dest"; "out"] "ask" "skip" Scenario.world
           (mkWorld Scenario.files ["unused"])).
  - unfold valid_policy. by_evaluation.
  - by_evaluation.
Defined.

(** X24 on the scenario: [dest/a] does not exist, so nothing is asked. *)
Lemma fresh_destination_needs_no_policy_witness :
  handle_existing_dest 20 ["dest"; "a"] "ask" Scenario.world =
    Ok (Some ["dest"; "a"], "ask")
       (mkWorld (<[["dest"; "a"] := Dir]> (fs Scenario.world)) (stdin Scenario.world)).
Proof.
  apply (fresh_destination_needs_no_policy 20 ["dest"; "a"] "ask" Scenario.world).
  - by_evaluation.
  - by_evaluation.
Defined.

(** ** Links to directories under the overwrite policy *)


(** X25.  Under the overwrite policy, for a destination that is a directory
    of a well-formed file system and has no symbolic link to a directory
    among its entries: the resolver returns the destination itself, which
    is still a directory; nothing is left below it; and the rest of the
    file system is as before. *)
Theorem overwrite_empties_link_free_destination (fuel : nat) (dest : Path)
    (w : World) :
  fs_wf (fs w) →
  fs w !! dest = Some Dir →
  (∀ c, Os.child_of dest c → fs w !! c ≠ Some DirLink) →
  ∃ files',
    ensure_destination fuel dest "overwrite" w = Ok (Some dest) (mkWorld files' (stdin w)) ∧
    files' !! dest = Some Dir ∧
    (∀ q, below dest q → files' !! q = None) ∧
    (∀ q, ¬ below dest q → files' !! q = fs w !! q).
Proof. apply ensure_destination_overwrite. Qed.


(** X25 on the scenario: [dest/out] holds a file and a subtree. *)
Lemma overwrite_empties_link_free_destination_witness :
  ∃ files',
    ensure_destination 20 ["dest"; "out"] "overwrite" Scenario.world =
      Ok (Some ["dest"; "out"]) (mkWorld files' (stdin Scenario.world)) ∧
    files' !! ["dest"; "out"] = Some Dir ∧
    (∀ q, below ["dest"; "out"] q → files' !! q = None) ∧
    (∀ q, ¬ below ["dest"; "out"] q → files' !! q = fs Scenario.world !! q).
Proof.
  apply (overwrite_empties_link_free_destination 20 ["dest"; "out"] Scenario.world).
  - exact scenario_fs_wf.
  - by_evaluation.
  - intros c _. apply scenario_link_free.
Defined.

